(** * port-scan-x: the scanning engine, its aggregation and its reports

    A shallow embedding of [scanner.py], [utils.py] and the result
    processing of [main_gui.py], with the properties of the specification
    stated and proved over it.

    Python objects are modelled as the code uses them: ints as [Z], the
    readings of [time.time()] as binary64 floats, [str] as [string],
    [dict] as [gmap], [set] as [gset], a raised exception as a value of
    the error monad [completion]. *)

From Stdlib Require Import ZArith List String Ascii Lia Floats.
From stdpp Require Import base option list gmap sets strings sorting pretty.

Local Open Scope string_scope.
Local Open Scope list_scope.
Local Open Scope Z_scope.

(** ** Python exceptions and completions *)

Module Py.

(** The classes of [Exception] the program raises, catches or lets the
    library raise.  [OtherException] stands for any further subclass of
    [Exception] ([OSError], [socket.gaierror], [RuntimeError], ...). *)
Inductive exc_class : Type :=
| TimeoutError
| ConnectionRefusedError
| ValueError
| OverflowError
| KeyError
| TypeError
| OtherException (name : string).

(** An exception instance: its class and [str(e)].  The values are
    instances of [Exception], which is what the handlers of the program
    name; a signal that derives from [BaseException] only (the
    cancellation of a task, the exit of the interpreter) is no result of
    the operations modelled here. *)
Record exn : Type := Exc { exc_cls : exc_class; exc_msg : string }.

(** How a call ends: it returns a value or raises. *)
Inductive completion (A : Type) : Type :=
| Return (a : A)
| Raise (e : exn).
Arguments Return {A} a.
Arguments Raise {A} e.

Definition bind {A B : Type} (c : completion A) (k : A -> completion B)
  : completion B :=
  match c with
  | Return a => k a
  | Raise e => Raise e
  end.

(** [try: body  except ...: handler e] with the handler receiving every
    raised [Exception]; a handler re-raises by returning [Raise]. *)
Definition try_except {A : Type} (body : completion A)
  (handler : exn -> completion A) : completion A :=
  match body with
  | Return a => Return a
  | Raise e => handler e
  end.

Definition exc_class_eqb (c d : exc_class) : bool :=
  match c, d with
  | TimeoutError, TimeoutError
  | ConnectionRefusedError, ConnectionRefusedError
  | ValueError, ValueError
  | OverflowError, OverflowError
  | KeyError, KeyError
  | TypeError, TypeError => true
  | OtherException n, OtherException m => String.eqb n m
  | _, _ => false
  end.

(** [isinstance(e, cls)] for the leaf classes above. *)
Definition isinstance (e : exn) (cls : exc_class) : bool :=
  exc_class_eqb (exc_cls e) cls.

(** [round(x)] of a float: the nearest integer, ties to even; it raises on
    NaN and on the infinities, as CPython does. *)
Definition round_half_even (m : positive) (e : Z) : Z :=
  if (0 <=? e)%Z then Z.pos m * 2 ^ e
  else
    let d := 2 ^ (- e) in
    let q := Z.pos m / d in
    let r := Z.pos m mod d in
    match (2 * r ?= d)%Z with
    | Lt => q
    | Gt => q + 1
    | Eq => if Z.even q then q else q + 1
    end.

Definition round (x : float) : completion Z :=
  match Prim2SF x with
  | S754_nan =>
      Raise (Exc ValueError "cannot convert float NaN to integer")
  | S754_infinity _ =>
      Raise (Exc OverflowError "cannot convert float infinity to integer")
  | S754_zero _ => Return 0
  | S754_finite s m e =>
      let z := round_half_even m e in
      Return (if s then - z else z)
  end.

End Py.

Export Py.

#[export] Instance completion_ret : MRet completion := @Return.
#[export] Instance completion_bind : MBind completion :=
  fun A B k c => bind c k.

(** ** scanner.py *)

Module Scanner.

(** A probe outcome, the tuple [(port, status, elapsed_ms)]. *)
Definition outcome : Type := Z * string * option Z.

Definition outcome_port (o : outcome) : Z := o.1.1.
Definition outcome_status (o : outcome) : string := o.1.2.
Definition outcome_elapsed (o : outcome) : option Z := o.2.

(** What the world does during one call of [scan_port]: the two readings
    of the clock and how each awaited or called operation ends.  Later
    fields matter only when the earlier operations returned. *)
Record attempt : Type := Attempt {
  start_clock : float;              (* time.time() on entry *)
  open_connection : completion unit;(* wait_for(open_connection(..), timeout) *)
  writer_close : completion unit;   (* writer.close() *)
  wait_closed : completion unit;    (* await writer.wait_closed() *)
  end_clock : float                 (* time.time() after closing *)
}.

Definition scan_port (ip : string) (port : Z) (timeout : float)
  (w : attempt) : completion outcome :=
  try_except
    (let start_time := start_clock w in
     open_connection w ;;
     writer_close w ;;
     wait_closed w ;;
     elapsed_ms ←
       round (PrimFloat.mul (PrimFloat.sub (end_clock w) start_time)
                1000%float) ;
     Return (port, "open", Some elapsed_ms))
    (fun e =>
       if isinstance e TimeoutError then Return (port, "timeout", None)
       else if isinstance e ConnectionRefusedError
            then Return (port, "closed", None)
       else Return (port, "error", None)).

(** *** [scan_ports]: the event loop

    [asyncio.gather] wraps one call of [scan_with_semaphore] per port in a
    task.  The loop is single-threaded: a task runs until it awaits.  A
    task awaits twice, on [semaphore.acquire()] (inside [async with]) and on
    [scan_port]; what follows the return of [scan_port] (the callback, the
    release of the slot on leaving [async with], the end of the task) has
    no await and runs as one step. *)

Section Scheduler.

(** The state the progress callback closes over. *)
Context {CB : Type}.

(** A callable without arguments: it updates its own state and returns
    or raises. *)
Definition callback : Type := CB -> CB * completion unit.

Variable ip : string.
Variable ports : list Z.
Variable timeout : float.
Variable progress_callback : option callback.

(** Where a task is: before its slot is acquired, inside [scan_port], or
    finished with the result or the exception [gather] collects. *)
Inductive task : Type :=
| Waiting
| InFlight
| Done (result : completion outcome).

(** What an observer of the loop sees, by task index (the position of the
    task's port in [ports]). *)
Inductive event : Type :=
| ProbeEnter (i : nat)   (* scan_port called *)
| ProbeExit (i : nat)    (* scan_port returned *)
| Progress (i : nat).    (* progress_callback() called *)

Record loop_state : Type := LoopState {
  sem_value : nat;       (* free slots of the semaphore *)
  tasks : list task;     (* one per port, in the order of [ports] *)
  cb_state : CB;
  trace : list event
}.

(** The choices of the loop and of the world: which waiting task gets a
    free slot, which probe finishes next and how. *)
Inductive action : Type :=
| Acquire (i : nat)
| Complete (i : nat) (w : attempt).

(** The body of [scan_with_semaphore] from the return of [scan_port] on:
    [result = await scan_port(..)], [if progress_callback:
    progress_callback()], [return result]. *)
Definition scan_with_semaphore (i : nat) (port : Z) (w : attempt) (st : CB)
  : CB * list event * completion outcome :=
  match scan_port ip port timeout w with
  | Return result =>
      match progress_callback with
      | Some f =>
          let '(st', r) := f st in
          (st', [ProbeExit i; Progress i], r ;; Return result)
      | None => (st, [ProbeExit i], Return result)
      end
  | Raise e => (st, [ProbeExit i], Raise e)
  end.

Definition step (s : loop_state) (a : action) : option loop_state :=
  match a with
  | Acquire i =>
      match tasks s !! i, sem_value s with
      | Some Waiting, S v =>
          Some (LoopState v (<[i := InFlight]> (tasks s)) (cb_state s)
                  (trace s ++ [ProbeEnter i]))
      | _, _ => None
      end
  | Complete i w =>
      match tasks s !! i, ports !! i with
      | Some InFlight, Some port =>
          let '(st, evs, r) := scan_with_semaphore i port w (cb_state s) in
          Some (LoopState (S (sem_value s)) (<[i := Done r]> (tasks s)) st
                  (trace s ++ evs))
      | _, _ => None
      end
  end.

Fixpoint run (s : loop_state) (schedule : list action) : option loop_state :=
  match schedule with
  | [] => Some s
  | a :: schedule' => s' ← step s a; run s' schedule'
  end.

(** [asyncio.Semaphore(value)]. *)
Definition Semaphore (value : Z) : completion nat :=
  if value <? 0
  then Raise (Exc ValueError "Semaphore initial value must be >= 0")
  else Return (Z.to_nat value).

Definition initial (concurrency : Z) (cb0 : CB) : completion loop_state :=
  v ← Semaphore concurrency;
  Return (LoopState v (replicate (length ports) Waiting) cb0 []).

(** [await asyncio.gather(.., return_exceptions=True)]: available once
    every task has finished; results and exceptions in task order. *)
Definition gathered (s : loop_state) : option (list (completion outcome)) :=
  mapM (fun t => match t with Done r => Some r | _ => None end) (tasks s).

Definition sentinel : outcome := (0, "error", None).

(** The loop over [results]: a tuple is kept, anything else is replaced.
    Every value a task returns is the tuple of [scan_port]. *)
Definition filter_exceptions (results : list (completion outcome))
  : list outcome :=
  foldl (fun valid_results result =>
           match result with
           | Return t => valid_results ++ [t]
           | Raise _ => valid_results ++ [sentinel]
           end) [] results.

(** [scan_ports] along a schedule: [None] when the schedule is not an
    execution of the loop up to the return of [gather]. *)
Definition scan_ports (concurrency : Z) (cb0 : CB) (schedule : list action)
  : option (completion (list outcome)) :=
  match initial concurrency cb0 with
  | Raise e => Some (Raise e)
  | Return s0 =>
      s ← run s0 schedule;
      results ← gathered s;
      Some (Return (filter_exceptions results))
  end.

(** Instrumentation: the probes in flight. *)
Definition is_in_flight (t : task) : bool :=
  match t with InFlight => true | _ => false end.

Definition in_flight (s : loop_state) : nat :=
  length (filter (fun t => is_in_flight t = true) (tasks s)).

(** The schedule that runs the probes one after the other, with the world
    [w] deciding each attempt. *)
Definition sequential (w : nat -> attempt) : list action :=
  flat_map (fun i => [Acquire i; Complete i (w i)]) (seq 0 (length ports)).

End Scheduler.

(** Instrumentation of a trace: the calls and returns of [scan_port], and
    the tasks that called the progress callback, in the order of the calls. *)
Definition is_enter (e : event) : bool :=
  match e with ProbeEnter _ => true | _ => false end.

Definition is_exit (e : event) : bool :=
  match e with ProbeExit _ => true | _ => false end.

Definition probe_entries (t : list event) : nat :=
  length (filter (fun e => is_enter e = true) t).

Definition probe_exits (t : list event) : nat :=
  length (filter (fun e => is_exit e = true) t).

Definition progress_calls (t : list event) : list nat :=
  omap (fun e => match e with Progress i => Some i | _ => None end) t.

(** *** [get_common_ports] *)

Definition get_common_ports : list Z :=
  [21; 22; 23; 25; 53; 80; 110; 111; 135; 139; 143; 443; 993; 995;
   1723; 3306; 3389; 5432; 5900; 8080; 8443; 8888; 9090].

End Scanner.

(** ** utils.py *)

Module Utils.

(** *** Strings

    [str] is modelled as a byte string holding ASCII text: a byte above
    127 is neither whitespace nor a digit here. *)

(** [str.isspace] on one ASCII character. *)
Definition is_space (c : ascii) : bool :=
  let n := nat_of_ascii c in
  ((9 <=? n) && (n <=? 13) || (28 <=? n) && (n <=? 32))%nat.

(** [s.isascii()]: every character is below U+0080.  On such text
    [is_space] is [str.isspace] and [strip] is [str.strip]; beyond it
    Python also strips U+0085, U+00A0 and the other Unicode spaces. *)
Fixpoint isascii (s : string) : bool :=
  match s with
  | EmptyString => true
  | String c s' => (nat_of_ascii c <? 128)%nat && isascii s'
  end.

Fixpoint lstrip (s : string) : string :=
  match s with
  | String c s' => if is_space c then lstrip s' else s
  | EmptyString => EmptyString
  end.

Fixpoint rstrip (s : string) : string :=
  match s with
  | String c s' =>
      match rstrip s' with
      | EmptyString => if is_space c then EmptyString else String c EmptyString
      | t => String c t
      end
  | EmptyString => EmptyString
  end.

Definition strip (s : string) : string := rstrip (lstrip s).

(** [s.split(sep)] for a one-character separator: never empty. *)
Fixpoint split (sep : ascii) (s : string) : list string :=
  match s with
  | EmptyString => [EmptyString]
  | String c s' =>
      if Ascii.eqb c sep then EmptyString :: split sep s'
      else match split sep s' with
           | piece :: pieces => String c piece :: pieces
           | [] => [String c EmptyString]
           end
  end.

(** [c in s] for a character. *)
Fixpoint contains_char (c : ascii) (s : string) : bool :=
  match s with
  | EmptyString => false
  | String d s' => Ascii.eqb c d || contains_char c s'
  end.

(** [sub in s]. *)
Fixpoint contains (sub s : string) : bool :=
  String.prefix sub s ||
  match s with
  | EmptyString => false
  | String _ s' => contains sub s'
  end.

Definition digit_of (c : ascii) : option Z :=
  let n := nat_of_ascii c in
  if ((48 <=? n) && (n <=? 57))%nat then Some (Z.of_nat n - 48) else None.

(** The digits of a literal: at least one, with single underscores allowed
    between two digits. *)
Fixpoint int_digits (s : string) (acc : Z) (after_digit : bool) : option Z :=
  match s with
  | EmptyString => if after_digit then Some acc else None
  | String c s' =>
      if Ascii.eqb c "_"%char
      then (if after_digit then int_digits s' acc false else None)
      else match digit_of c with
           | Some d => int_digits s' (10 * acc + d) true
           | None => None
           end
  end.

(** [int(s)]: surrounding whitespace, an optional sign, decimal digits. *)
Definition int (s : string) : completion Z :=
  let body := strip s in
  let parsed :=
    match body with
    | String "-"%char digits => Z.opp <$> int_digits digits 0 false
    | String "+"%char digits => int_digits digits 0 false
    | _ => int_digits body 0 false
    end in
  match parsed with
  | Some z => Return z
  | None =>
      Raise (Exc ValueError
               ("invalid literal for int() with base 10: '" +:+ s +:+ "'"))
  end.

(** [str(n)] for an int. *)
Definition str_int (n : Z) : string := pretty n.

Definition spaces (n : nat) : string :=
  string_of_list_ascii (replicate n " "%char).

(** [format(s, "<n>s")]: left-aligned, padded to width [n]. *)
Definition ljust (width : nat) (s : string) : string :=
  s +:+ spaces (width - String.length s).

(** [format(n, "<w>d")]: right-aligned, padded to width [w]. *)
Definition rjust (width : nat) (s : string) : string :=
  spaces (width - String.length s) +:+ s.

(** [sep.join(l)]. *)
Fixpoint join (sep : string) (l : list string) : string :=
  match l with
  | [] => ""
  | [x] => x
  | x :: l' => x +:+ sep +:+ join sep l'
  end.

(** *** [parse_ports] *)

(** [start, end = map(int, pieces)]: [int] is applied as the unpacking
    asks for the next item, one item beyond the two targets. *)
Definition unpack_two_ints (pieces : list string) : completion (Z * Z) :=
  match pieces with
  | [] =>
      Raise (Exc ValueError "not enough values to unpack (expected 2, got 0)")
  | [a] =>
      int a ;;
      Raise (Exc ValueError "not enough values to unpack (expected 2, got 1)")
  | a :: b :: rest =>
      start ← int a;
      end_ ← int b;
      match rest with
      | [] => Return (start, end_)
      | c :: _ =>
          int c ;;
          Raise (Exc ValueError "too many values to unpack (expected 2)")
      end
  end.

(** One turn of the loop over [parts]. *)
Definition parse_part (ports : gset Z) (part : string) : completion (gset Z) :=
  let part := strip part in
  if contains_char "-"%char part then
    try_except
      ('(start, end_) ← unpack_two_ints (split "-"%char part);
       if (start <? 1) || (end_ >? 65535) || (start >? end_)
       then Raise (Exc ValueError
                     ("Некорректный диапазон портов: " +:+ part))
       else Return (ports ∪ list_to_set (seqZ start (end_ + 1 - start))))
      (fun e =>
         if isinstance e ValueError then
           if contains "invalid literal" (exc_msg e)
           then Raise (Exc ValueError
                         ("Некорректный формат диапазона: " +:+ part))
           else Raise e
         else Raise e)
  else
    try_except
      (port ← int part;
       if (port <? 1) || (port >? 65535)
       then Raise (Exc ValueError
                     ("Порт вне диапазона 1-65535: " +:+ str_int port))
       else Return (ports ∪ {[ port ]}))
      (fun e =>
         if isinstance e ValueError
         then Raise (Exc ValueError ("Некорректный номер порта: " +:+ part))
         else Raise e).

Fixpoint parse_parts (ports : gset Z) (parts : list string)
  : completion (gset Z) :=
  match parts with
  | [] => Return ports
  | part :: parts' =>
      ports' ← parse_part ports part;
      parse_parts ports' parts'
  end.

(** [sorted(list(ports))]. *)
Definition sorted (ports : gset Z) : list Z :=
  merge_sort Z.le (elements ports).

Definition parse_ports (port_string : string) : completion (list Z) :=
  if String.eqb port_string "" || String.eqb (strip port_string) ""
  then Raise (Exc ValueError "Пустая строка портов")
  else
    ports ← parse_parts ∅ (split ","%char (strip port_string));
    Return (sorted ports).

(** *** Result dictionaries *)

(** The values the result dictionaries hold. *)
Inductive value : Type :=
| VNone
| VInt (n : Z)
| VStr (s : string).

#[export] Instance value_eq_dec : EqDecision value.
Proof. solve_decision. Defined.

(** [str(v)]. *)
Definition str (v : value) : string :=
  match v with
  | VNone => "None"
  | VInt n => str_int n
  | VStr s => s
  end.

(** [d[key]]. *)
Definition getitem (d : gmap string value) (key : string) : completion value :=
  match d !! key with
  | Some v => Return v
  | None => Raise (Exc KeyError ("'" +:+ key +:+ "'"))
  end.

(** *** [get_port_description] *)

Definition well_known_ports : gmap Z string :=
  list_to_map
    [ (21, "FTP"); (22, "SSH"); (23, "Telnet"); (25, "SMTP"); (53, "DNS");
      (80, "HTTP"); (110, "POP3"); (111, "RPC"); (135, "RPC Endpoint");
      (139, "NetBIOS"); (143, "IMAP"); (443, "HTTPS"); (993, "IMAPS");
      (995, "POP3S"); (1723, "PPTP"); (3306, "MySQL"); (3389, "RDP");
      (5432, "PostgreSQL"); (5900, "VNC"); (8080, "HTTP Proxy");
      (8443, "HTTPS Alt"); (8888, "HTTP Alt"); (9090, "HTTP Alt") ].

Definition get_port_description (port : Z) : string :=
  default ("Port " +:+ str_int port) (well_known_ports !! port).

(** *** [save_results_txt] *)

(** [f"{v:5d}"]. *)
Definition format_5d (v : value) : completion string :=
  match v with
  | VInt n => Return (rjust 5 (str_int n))
  | VStr _ =>
      Raise (Exc ValueError "Unknown format code 'd' for object of type 'str'")
  | VNone =>
      Raise (Exc TypeError
               "unsupported format string passed to NoneType.__format__")
  end.

(** [f"{v:<width>s}"]. *)
Definition format_s (width : nat) (v : value) : completion string :=
  match v with
  | VStr s => Return (ljust width s)
  | VInt _ =>
      Raise (Exc ValueError "Unknown format code 's' for object of type 'int'")
  | VNone =>
      Raise (Exc TypeError
               "unsupported format string passed to NoneType.__format__")
  end.

(** The description of [result['port']]; a port that is no int is not in
    the table. *)
Definition description_of (port : value) : string :=
  match port with
  | VInt n => get_port_description n
  | _ => "Port " +:+ str port
  end.

(** What one turn of the loop over [results] writes. *)
Definition result_line (result : gmap string value) : completion string :=
  port ← getitem result "port";
  status ← getitem result "status";
  let time_ms := default (VStr "N/A") (result !! "time_ms") in
  let description := description_of port in
  port_field ← format_5d port;
  description_field ← format_s 15 (VStr description);
  status_field ← format_s 8 status;
  let line :=
    "Port " +:+ port_field +:+ " (" +:+ description_field +:+ "): "
      +:+ status_field in
  let line :=
    if decide (time_ms ≠ VStr "N/A")
    then line +:+ " (" +:+ str time_ms +:+ "ms)"
    else line in
  Return (line +:+ String "010"%char "").

(** The texts one turn of the loop passes to [f.write], in order: the
    columns, the elapsed field when [time_ms] is not 'N/A', and the end of
    the line.  Everything that can raise in the turn (the two lookups and
    the f-string of the columns) is evaluated before the first of the
    writes. *)
Definition result_writes (result : gmap string value)
  : completion (list string) :=
  port ← getitem result "port";
  status ← getitem result "status";
  let time_ms := default (VStr "N/A") (result !! "time_ms") in
  let description := description_of port in
  port_field ← format_5d port;
  description_field ← format_s 15 (VStr description);
  status_field ← format_s 8 status;
  Return
    (["Port " +:+ port_field +:+ " (" +:+ description_field +:+ "): "
        +:+ status_field]
       ++ (if decide (time_ms ≠ VStr "N/A")
           then [" (" +:+ str time_ms +:+ "ms)"]
           else [])
       ++ [String "010"%char ""]).

(** The calls [save_results_txt] makes on the file:
    [open(filename, 'w', encoding='utf-8')], [f.write(text)], and the
    close of the file when the [with] block is left. *)
Inductive file_call : Type :=
| OpenFile (filename : string)
| WriteText (text : string)
| CloseFile.

(** The world [save_results_txt] runs in: how a call on the file ends,
    given the calls made before it.  It may raise what the operating
    system and the encoder raise: [OSError] for a path that cannot be
    opened or a disk that is full, [UnicodeEncodeError] for text UTF-8
    cannot encode. *)
Definition file_system : Type :=
  list file_call -> file_call -> completion unit.

(** One call on the file: how it ends, and the calls made so far. *)
Definition call (fs : file_system) (c : file_call) (calls : list file_call)
  : completion unit * list file_call :=
  (fs calls c, calls ++ [c]).

(** [f.write(text)] for each text in turn, up to the first that raises. *)
Fixpoint write_all (fs : file_system) (texts : list string)
  (calls : list file_call) : completion unit * list file_call :=
  match texts with
  | [] => (Return (), calls)
  | text :: texts' =>
      match call fs (WriteText text) calls with
      | (Return _, calls') => write_all fs texts' calls'
      | raised => raised
      end
  end.

(** The four writes before the loop; [scan_date] is
    [datetime.now().strftime('%Y-%m-%d %H:%M:%S')]. *)
Definition header_writes (results : list (gmap string value))
  (host scan_date : string) : list string :=
  let nl := String "010"%char "" in
  ["Port Scan Results for " +:+ host +:+ nl;
   "Scan Date: " +:+ scan_date +:+ nl;
   "Total Ports Scanned: " +:+ str_int (Z.of_nat (length results)) +:+ nl;
   string_of_list_ascii (replicate 50 "-"%char) +:+ nl +:+ nl].

(** [for result in results: ...]. *)
Fixpoint write_results (fs : file_system)
  (results : list (gmap string value)) (calls : list file_call)
  : completion unit * list file_call :=
  match results with
  | [] => (Return (), calls)
  | result :: results' =>
      match result_writes result with
      | Raise e => (Raise e, calls)
      | Return texts =>
          match write_all fs texts calls with
          | (Return _, calls') => write_results fs results' calls'
          | raised => raised
          end
      end
  end.

(** [save_results_txt]: how it ends and the calls it made on the file.
    When [open] raises there is no file and nothing to close; otherwise
    the [with] block closes the file however its body ends, and an
    exception of that close is the one that leaves the function. *)
Definition save_results_txt (fs : file_system)
  (results : list (gmap string value)) (filename host scan_date : string)
  : completion unit * list file_call :=
  match call fs (OpenFile filename) [] with
  | (Raise e, calls) => (Raise e, calls)
  | (Return _, calls) =>
      let '(body, calls) :=
        match write_all fs (header_writes results host scan_date) calls with
        | (Return _, calls') => write_results fs results calls'
        | raised => raised
        end in
      match call fs CloseFile calls with
      | (Raise e, calls') => (Raise e, calls')
      | (Return _, calls') => (body, calls')
      end
  end.

(** *** [create_summary] *)

(** The objects [create_summary] works on: the list it is given and the
    dictionary it builds. *)
Record summary_frame : Type := SummaryFrame {
  results_arg : list (gmap string value);
  summary : gmap string Z
}.

(** [status in summary]: the keys of [summary] are strings. *)
Definition in_summary (status : value) (summary : gmap string Z)
  : option string :=
  match status with
  | VStr s => if decide (is_Some (summary !! s)) then Some s else None
  | _ => None
  end.

(** One turn of the loop: [status = result.get("status", "error")],
    [if status in summary: summary[status] += 1]. *)
Definition count_status (fr : summary_frame) (result : gmap string value)
  : summary_frame :=
  let status := default (VStr "error") (result !! "status") in
  match in_summary status (summary fr) with
  | Some key =>
      SummaryFrame (results_arg fr)
        (<[key := default 0 (summary fr !! key) + 1]> (summary fr))
  | None => fr
  end.

Definition create_summary_frame (results : list (gmap string value))
  : summary_frame :=
  let fr :=
    SummaryFrame results
      (<["total" := Z.of_nat (length results)]>
         (<["open" := 0]> (<["closed" := 0]>
            (<["timeout" := 0]> (<["error" := 0]> ∅))))) in
  foldl count_status fr (results_arg fr).

Definition create_summary (results : list (gmap string value))
  : gmap string Z :=
  summary (create_summary_frame results).

End Utils.

(** ** utils.py: [validate_ip_or_domain] *)

Module Validate.

Import Utils.

(** *** The regular expressions of [re] that the domain pattern uses *)

Inductive regex : Type :=
| Bol                            (* ^ *)
| Eol                            (* $ *)
| NotAhead (c : ascii)           (* (?!c) *)
| NotBehind (c : ascii)          (* (?<!c) *)
| Char (c : ascii)               (* a literal character *)
| Class (P : ascii -> bool)      (* [...] *)
| Seq (r1 r2 : regex)            (* r1 r2 *)
| Repeat (r : regex) (min max : nat)   (* r{min,max} *)
| Star (r : regex).              (* r* *)

(** What remains to be matched, given the character before the current
    position ([None] at the start of the string) and the rest of the
    string. *)
Definition continuation : Type := option ascii -> string -> bool.

(** Between [min] and [max] turns of [body], then [k]. *)
Fixpoint repeat (body : option ascii -> string -> continuation -> bool)
  (max min : nat) (prev : option ascii) (s : string) (k : continuation)
  : bool :=
  (match min with O => k prev s | S _ => false end)
  || match max with
     | O => false
     | S max' =>
         body prev s (fun prev' s' => repeat body max' (pred min) prev' s' k)
     end.

(** A backtracking matcher: whether [r], then [k], match at the current
    position.  [$] matches at the end of the string and before a newline
    that ends it; a turn of [r*] that matches takes at least one
    character, so [r*] has at most as many turns as characters remain. *)
Fixpoint matches (r : regex) (prev : option ascii) (s : string)
  (k : continuation) {struct r} : bool :=
  match r with
  | Bol => match prev with None => k prev s | Some _ => false end
  | Eol =>
      (String.eqb s "" || String.eqb s (String "010" "")) && k prev s
  | NotAhead c =>
      match s with
      | String d _ => negb (Ascii.eqb c d) && k prev s
      | EmptyString => k prev s
      end
  | NotBehind c =>
      match prev with
      | Some d => negb (Ascii.eqb c d) && k prev s
      | None => k prev s
      end
  | Char c =>
      match s with
      | String d s' => Ascii.eqb c d && k (Some d) s'
      | EmptyString => false
      end
  | Class P =>
      match s with
      | String d s' => P d && k (Some d) s'
      | EmptyString => false
      end
  | Seq r1 r2 => matches r1 prev s (fun prev' s' => matches r2 prev' s' k)
  | Repeat r min max => repeat (matches r) max min prev s k
  | Star r => repeat (matches r) (String.length s) 0 prev s k
  end.

(** [bool(pattern.match(s))]: a match that starts at the start of [s]. *)
Definition re_match (pattern : regex) (s : string) : bool :=
  matches pattern None s (fun _ _ => true).

(** *** [validate_ip_or_domain] *)

(** [[A-Za-z0-9-]]. *)
Definition label_char (c : ascii) : bool :=
  let n := nat_of_ascii c in
  ((65 <=? n) && (n <=? 90) || (97 <=? n) && (n <=? 122)
   || (48 <=? n) && (n <=? 57) || (n =? 45))%nat.

(** [^(?!-)[A-Za-z0-9-]{1,63}(?<!-)(\.[A-Za-z0-9-]{1,63})*$]. *)
Definition domain_pattern : regex :=
  Seq Bol
    (Seq (NotAhead "-")
       (Seq (Repeat (Class label_char) 1 63)
          (Seq (NotBehind "-")
             (Seq (Star (Seq (Char ".") (Repeat (Class label_char) 1 63)))
                Eol)))).

Section WithIpAddress.

(** [ipaddress.ip_address], of the standard library: it returns for an
    IPv4 or IPv6 literal and raises [ValueError] otherwise. *)
Variable ip_address : string -> completion unit.

Definition validate_ip_or_domain (host : string) : completion bool :=
  if String.eqb host "" || String.eqb (strip host) "" then Return false
  else
    let host := strip host in
    is_ip ←
      try_except (ip_address host ;; Return true)
        (fun e => if isinstance e ValueError then Return false else Raise e);
    if (is_ip : bool) then Return true
    else if (253 <? String.length host)%nat then Return false
    else Return (re_match domain_pattern host).

End WithIpAddress.

End Validate.

(** ** scanner.py: [banner_grab] *)

Module Banner.

Import Utils.

(** The calls [banner_grab] makes on the writer of the connection. *)
Inductive writer_call : Type := Close | WaitClosed.

(** What the world does during one call of [banner_grab].  [read] is the
    text of the bytes [reader.read(1024)] returns within a second, decoded
    as UTF-8 with errors ignored (the decoding itself never raises);
    [close k] and [wait_closed k] are how the call number [k] of
    [writer.close()] and of [writer.wait_closed()] ends. *)
Record exchange : Type := Exchange {
  connect : completion unit;
  read : completion string;
  close : nat -> completion unit;
  wait_closed : nat -> completion unit
}.

Definition is_close (c : writer_call) : bool :=
  match c with Close => true | WaitClosed => false end.

(** The calls of [writer.close()] and of [writer.wait_closed()] made. *)
Definition closes (calls : list writer_call) : nat :=
  length (filter (fun c => is_close c = true) calls).

Definition waits (calls : list writer_call) : nat :=
  length (filter (fun c => is_close c = false) calls).

(** [writer.close(); await writer.wait_closed()] after the calls [calls]. *)
Definition close_and_wait (w : exchange) (calls : list writer_call)
  : completion unit * list writer_call :=
  match close w (closes calls) with
  | Raise e => (Raise e, [Close])
  | Return _ => (wait_closed w (waits calls), [Close; WaitClosed])
  end.

(** The result of [banner_grab] and the calls it made on the writer.  The
    inner [try] handles [asyncio.TimeoutError] only; everything else that
    is raised reaches [except Exception: return None]. *)
Definition banner_grab (ip : string) (port : Z) (timeout : float)
  (w : exchange) : completion (option string) * list writer_call :=
  match connect w with
  | Raise _ => (Return None, [])
  | Return _ =>
      let '(inner, calls) :=
        match read w with
        | Raise e => (Raise e, [])
        | Return text =>
            let banner := strip text in
            let '(closed, calls) := close_and_wait w [] in
            (closed ;;
             Return (if String.eqb banner "" then None else Some banner),
             calls)
        end in
      match inner with
      | Return result => (Return result, calls)
      | Raise e =>
          if isinstance e TimeoutError then
            let '(closed, calls') := close_and_wait w calls in
            (try_except (closed ;; Return None) (fun _ => Return None),
             calls ++ calls')
          else (Return None, calls)
      end
  end.

End Banner.

(** ** main_gui.py: what [PortScannerApp] does with the outcomes *)

Module Gui.

Import Scanner Utils.

(** *** [list.sort(key=...)]

    The keys are computed first, one per element; the sort is stable.  Any
    stable sort returns the same list, so insertion stands for Timsort. *)

Section Sort.

Context {A K : Type}.
Variable leb : K -> K -> bool.

Fixpoint insert_keyed (x : K * A) (l : list (K * A)) : list (K * A) :=
  match l with
  | [] => [x]
  | y :: l' =>
      if leb x.1 y.1 then x :: y :: l' else y :: insert_keyed x l'
  end.

Definition sort_keyed (l : list (K * A)) : list (K * A) :=
  foldr insert_keyed [] l.

End Sort.

Definition int_key (v : value) : option Z :=
  match v with VInt n => Some n | _ => None end.

Definition str_key (v : value) : option string :=
  match v with VStr s => Some s | _ => None end.

(** [l.sort(key=lambda x: x[name])].  Ints compare with ints and strings
    with strings; a sort of two or more elements compares every element
    with another one, so keys of mixed types, or [None] keys, raise. *)
Fixpoint item_keys (name : string) (l : list (gmap string value))
  : completion (list value) :=
  match l with
  | [] => Return []
  | x :: l' =>
      k ← getitem x name;
      ks ← item_keys name l';
      Return (k :: ks)
  end.

Definition sort_by_item (name : string) (l : list (gmap string value))
  : completion (list (gmap string value)) :=
  keys ← item_keys name l;
  if (length l <=? 1)%nat then Return l
  else
    match mapM int_key keys, mapM str_key keys with
    | Some ints, _ => Return (sort_keyed Z.leb (zip ints l)).*2
    | None, Some strs => Return (sort_keyed String.leb (zip strs l)).*2
    | None, None =>
        Raise (Exc TypeError "'<' not supported between instances")
    end.

(** The dictionary built for one outcome tuple. *)
Definition result_dict (o : outcome) : gmap string value :=
  let '(port, status, time_ms) := o in
  <["port" := VInt port]>
    (<["status" := VStr status]>
       (<["time_ms" := from_option VInt VNone time_ms]>
          (<["description" := VStr (get_port_description port)]> ∅))).

(** The field of [PortScannerApp] that [process_results] computes.  The
    rows of the table it then fills show the same list and are left to
    the toolkit. *)
Record PortScannerApp : Type :=
  App { scan_results : list (gmap string value) }.

Definition process_results (self : PortScannerApp)
  (results : list outcome) : completion PortScannerApp :=
  let self := App [] in
  let self :=
    foldl (fun self o => App (scan_results self ++ [result_dict o]))
      self results in
  sorted_results ← sort_by_item "port" (scan_results self);
  Return (App sorted_results).

(** The aggregation of the outcomes the application holds: the sort of
    [process_results] and the summary [finish_scan] asks for. *)
Definition aggregate (results : list (gmap string value))
  : completion (list (gmap string value) * gmap string Z) :=
  scan_results ← sort_by_item "port" results;
  Return (scan_results, create_summary scan_results).

(** *** The buttons that fill the port field

    [set_common_ports] and [set_all_ports]: the text each one puts in
    [ports_input], which [start_scan] hands to [parse_ports]. *)
Definition set_common_ports : string :=
  join "," (str_int <$> get_common_ports).

Definition set_all_ports : string := "1-65535".

End Gui.

(** ** Concrete scans, for the examples below *)

Module Scenario.

Import Scanner.

(** The connection is made and closed within 62.5 ms. *)
Definition connects : attempt :=
  Attempt 100%float (Return ()) (Return ()) (Return ()) 100.0625%float.

Definition refused : attempt :=
  Attempt 100%float
    (Raise (Exc ConnectionRefusedError "Connect call failed"))
    (Return ()) (Return ()) 100%float.

Definition times_out : attempt :=
  Attempt 100%float (Raise (Exc TimeoutError ""))
    (Return ()) (Return ()) 101%float.

Definition unreachable : attempt :=
  Attempt 100%float
    (Raise (Exc (OtherException "OSError") "Network is unreachable"))
    (Return ()) (Return ()) 100%float.

(** A callback that counts its calls, as [update_progress] does. *)
Definition counting : @callback nat := fun n => (S n, Return ()).

(** A callback that counts its calls and fails on the second one. *)
Definition fails_second : @callback nat :=
  fun n =>
    (S n,
     if (n =? 1)%nat
     then Raise (Exc (OtherException "RuntimeError") "page is closed")
     else Return ()).

(** Three ports under a limit of two: the probes of 22 and 80 start, 80 is
    refused, 443 starts, 22 connects, 443 times out. *)
Definition interleaved : list action :=
  [Acquire 0; Acquire 1; Complete 1 refused; Acquire 2;
   Complete 0 connects; Complete 2 times_out].

(** What [gather] returns for [interleaved] with [fails_second]: the
    second call of the callback is the one of the task of port 22. *)
Definition gathered_with_fault : list (completion outcome) :=
  [Raise (Exc (OtherException "RuntimeError") "page is closed");
   Return (80, "closed", None);
   Return (443, "timeout", None)].

End Scenario.

(** ** The vocabulary of the properties *)

Module Spec.

Import Scanner Utils Gui.

Definition statuses : list string := ["open"; "closed"; "timeout"; "error"].

(** *** Invariants of the event loop *)

Section Invariants.

Context {CB : Type}.
Variable ip : string.
Variable ports : list Z.
Variable timeout : float.
Variable progress_callback : option (@callback CB).

(** The semaphore: the probes in flight and the free slots add up to the
    limit [c], and the trace counts the probes in flight. *)
Record slots (c : nat) (s : @loop_state CB) : Prop := Slots {
  slots_tasks : length (tasks s) = length ports;
  slots_sum : (in_flight s + sem_value s = c)%nat;
  slots_trace :
    (probe_entries (trace s) = probe_exits (trace s) + in_flight s)%nat
}.

Definition finished (s : @loop_state CB) (i : nat) : Prop :=
  exists r, tasks s !! i = Some (Done r).

(** With a callback, the tasks that called it are the finished ones, each
    once; without, nothing is called. *)
Definition progress_inv (s : @loop_state CB) : Prop :=
  match progress_callback with
  | Some _ =>
      NoDup (progress_calls (trace s)) /\
      forall i, i ∈ progress_calls (trace s) <-> finished s i
  | None => progress_calls (trace s) = []
  end.

(** A finished task holds the tuple its probe returned, or the exception
    its call of the callback raised. *)
Definition results_inv (s : @loop_state CB) : Prop :=
  forall i r, tasks s !! i = Some (Done r) ->
    exists port w o,
      ports !! i = Some port /\ scan_port ip port timeout w = Return o /\
      (r = Return o \/
       exists f st e, progress_callback = Some f /\ (f st).2 = Raise e /\
                      r = Raise e).

End Invariants.

(** What the loop over the gathered results puts in [valid_results]. *)
Definition substitute (r : completion outcome) : outcome :=
  match r with
  | Return t => t
  | Raise _ => sentinel
  end.

Definition is_waiting (t : task) : bool :=
  match t with Waiting => true | _ => false end.

(** The steps left: two for a waiting task, one for a probe in flight. *)
Definition steps_left {CB} (s : @loop_state CB) : nat :=
  (2 * length (filter (fun t => is_waiting t = true) (tasks s))
   + length (filter (fun t => is_in_flight t = true) (tasks s)))%nat.

(** *** Sorting and counting *)

(** The order [list.sort] establishes between decorated elements. *)
Definition key_le {A K : Type} (leb : K -> K -> bool) (x y : K * A) : Prop :=
  leb x.1 y.1 = true.

(** The outcomes in the order of the sorted dictionaries. *)
Definition sort_outcomes (results : list outcome) : list outcome :=
  (sort_keyed Z.leb ((fun o => (outcome_port o, o)) <$> results)).*2.

(** The status [create_summary] reads from a result. *)
Definition status_of (result : gmap string value) : value :=
  default (VStr "error") (result !! "status").

(** The results whose status is the string [name]. *)
Definition count (name : string) (results : list (gmap string value)) : nat :=
  length (filter (fun result => status_of result = VStr name) results).

(** A result without status, or with one of the four statuses. *)
Definition recognized (result : gmap string value) : Prop :=
  exists name, name ∈ statuses /\ status_of result = VStr name.

End Spec.

Import Scanner Utils Gui Spec.

(** * Properties *)

(** ** The probe *)

Lemma scan_port_cases ip port timeout w :
  (exists ms, scan_port ip port timeout w = Return (port, "open", Some ms))
  \/ scan_port ip port timeout w = Return (port, "timeout", None)
  \/ scan_port ip port timeout w = Return (port, "closed", None)
  \/ scan_port ip port timeout w = Return (port, "error", None).
Proof.
  unfold scan_port, try_except, mbind, completion_bind, bind.
  destruct (open_connection w), (writer_close w), (wait_closed w);
    try destruct (round _); eauto;
    repeat match goal with
           | |- context [isinstance ?e ?c] => destruct (isinstance e c)
           end; eauto.
Qed.

Lemma scan_port_returns ip port timeout w :
  exists status elapsed,
    scan_port ip port timeout w = Return (port, status, elapsed).
Proof.
  destruct (scan_port_cases ip port timeout w)
    as [[ms ->] | [-> | [-> | ->]]]; eauto.
Qed.

(** C1. Whatever the host, the port, the timeout and the behaviour of the
    network, [scan_port] returns (it does not raise) a tuple that carries
    the probed port and one of the four statuses; the elapsed time is an
    integer when the status is "open" and [None] for every other status. *)
Theorem scan_port_classified (ip : string) (port : Z) (timeout : float)
  (w : attempt) :
  exists status elapsed,
    scan_port ip port timeout w = Return (port, status, elapsed) /\
    status ∈ statuses /\
    (status = "open" -> exists ms : Z, elapsed = Some ms) /\
    (status <> "open" -> elapsed = None).
Proof.
  destruct (scan_port_cases ip port timeout w)
    as [[ms ->] | [-> | [-> | ->]]];
    do 2 eexists; (split; [reflexivity |]);
    (split; [unfold statuses; set_solver |]);
    split; intros; eauto; congruence.
Qed.

(** ** The event loop *)

Lemma length_filter_insert {A} (P : A -> Prop) `{!forall x, Decision (P x)}
  (l : list A) (i : nat) (x y : A) :
  l !! i = Some x ->
  (length (filter P (<[i:=y]> l)) + (if decide (P x) then 1 else 0)
   = length (filter P l) + (if decide (P y) then 1 else 0))%nat.
Proof.
  revert i. induction l as [| z l IH]; intros [| i] Hi; simplify_eq/=.
  - rewrite !filter_cons. repeat case_decide; simpl; lia.
  - specialize (IH _ Hi). rewrite !filter_cons.
    destruct (decide (P z)); simpl; lia.
Qed.

Section SchedulerProofs.

Context {CB : Type}.
Variable ip : string.
Variable ports : list Z.
Variable timeout : float.
Variable progress_callback : option (@callback CB).

Abbreviation step' := (step ip ports timeout progress_callback).
Abbreviation run' := (run ip ports timeout progress_callback).
Abbreviation body' := (scan_with_semaphore ip timeout progress_callback).
Abbreviation slots := (@Spec.slots CB ports).
Abbreviation finished := (@Spec.finished CB).
Abbreviation progress_inv := (@Spec.progress_inv CB progress_callback).
Abbreviation results_inv :=
  (@Spec.results_inv CB ip ports timeout progress_callback).

Lemma run_app s sched1 sched2 :
  run' s (sched1 ++ sched2) = s' ← run' s sched1; run' s' sched2.
Proof.
  revert s. induction sched1 as [| a sched1 IH]; intros s; simpl; [done |].
  destruct (step' s a); simpl; [apply IH | done].
Qed.

(** A property that holds initially and that every step keeps holds in
    every state the loop can reach. *)
Lemma run_invariant (P : loop_state -> Prop) :
  (forall s a s', P s -> step' s a = Some s' -> P s') ->
  forall sched s0 s, P s0 -> run' s0 sched = Some s -> P s.
Proof.
  intros Hstep. induction sched as [| a sched IH]; intros s0 s H0 Hrun.
  - by simplify_eq/=.
  - simpl in Hrun. destruct (step' s0 a) as [s1 |] eqn:Hs; [| done].
    simpl in Hrun. eauto.
Qed.

Lemma step_inv s a s' :
  step' s a = Some s' ->
  (exists i v, a = Acquire i /\ tasks s !! i = Some Waiting /\
     sem_value s = S v /\
     s' = LoopState v (<[i := InFlight]> (tasks s)) (cb_state s)
            (trace s ++ [ProbeEnter i]))
  \/ (exists i w port st evs r, a = Complete i w /\
        tasks s !! i = Some InFlight /\ ports !! i = Some port /\
        body' i port w (cb_state s) = (st, evs, r) /\
        s' = LoopState (S (sem_value s)) (<[i := Done r]> (tasks s)) st
               (trace s ++ evs)).
Proof.
  destruct a as [i | i w]; simpl; intros H.
  - left. destruct (tasks s !! i) as [[| |] |] eqn:Ht; try done.
    destruct (sem_value s) as [| v] eqn:Hv; [done |].
    simplify_eq. by exists i, v.
  - right. destruct (tasks s !! i) as [[| |] |] eqn:Ht; try done.
    destruct (ports !! i) as [port |] eqn:Hp; [| done].
    destruct (body' i port w (cb_state s)) as [[st evs] r] eqn:Hb.
    simplify_eq. by exists i, w, port, st, evs, r.
Qed.

(** What the rest of a task does once [scan_port] has returned. *)
Lemma scan_with_semaphore_spec i port w st st' evs r :
  body' i port w st = (st', evs, r) ->
  exists o, scan_port ip port timeout w = Return o /\
    match progress_callback with
    | Some f =>
        st' = (f st).1 /\ evs = [ProbeExit i; Progress i] /\
        r = ((f st).2 ;; Return o)
    | None => st' = st /\ evs = [ProbeExit i] /\ r = Return o
    end.
Proof.
  unfold scan_with_semaphore.
  destruct (scan_port_returns ip port timeout w)
    as (status & elapsed & ->).
  intros H. eexists; split; [done |].
  destruct progress_callback as [f |]; [destruct (f st) |]; by simplify_eq.
Qed.

(** *** The semaphore: slots taken and slots free *)

Lemma events_of_body i port w st st' evs r :
  body' i port w st = (st', evs, r) ->
  probe_entries evs = 0%nat /\ probe_exits evs = 1%nat.
Proof.
  intros (o & _ & H)%scan_with_semaphore_spec.
  destruct progress_callback; destruct H as (_ & -> & _); done.
Qed.

Lemma probe_entries_app t1 t2 :
  probe_entries (t1 ++ t2) = (probe_entries t1 + probe_entries t2)%nat.
Proof. unfold probe_entries. by rewrite filter_app, length_app. Qed.

Lemma probe_exits_app t1 t2 :
  probe_exits (t1 ++ t2) = (probe_exits t1 + probe_exits t2)%nat.
Proof. unfold probe_exits. by rewrite filter_app, length_app. Qed.

Lemma slots_step c s a s' :
  slots c s -> step' s a = Some s' -> slots c s'.
Proof.
  intros [Hlen Hsum Htr] Hstep.
  destruct (step_inv _ _ _ Hstep)
    as [(i & v & -> & Ht & Hv & ->)
       | (i & w & port & st & evs & r & -> & Ht & Hp & Hb & ->)].
  - pose proof (length_filter_insert (fun t => is_in_flight t = true)
                  (tasks s) i Waiting InFlight Ht) as Hc.
    repeat case_decide; try done.
    split; unfold in_flight in *; simpl in *.
    + by rewrite length_insert.
    + lia.
    + rewrite probe_entries_app, probe_exits_app.
      change (probe_entries [ProbeEnter i]) with 1%nat.
      change (probe_exits [ProbeEnter i]) with 0%nat. lia.
  - pose proof (length_filter_insert (fun t => is_in_flight t = true)
                  (tasks s) i InFlight (Done r) Ht) as Hc.
    destruct (events_of_body _ _ _ _ _ _ _ Hb) as [He Hx].
    repeat case_decide; try done.
    split; unfold in_flight in *; simpl in *.
    + by rewrite length_insert.
    + lia.
    + rewrite probe_entries_app, probe_exits_app. lia.
Qed.

Lemma slots_initial (concurrency : Z) cb0 s0 :
  initial ports concurrency cb0 = Return s0 ->
  0 <= concurrency /\ slots (Z.to_nat concurrency) s0.
Proof.
  unfold initial, Semaphore. destruct (Z.ltb_spec concurrency 0); [done |].
  intros [= <-]. split; [done |]. split; simpl.
  - by rewrite length_replicate.
  - unfold in_flight; simpl.
    assert (filter (fun t => is_in_flight t = true)
              (replicate (length ports) Waiting) = []) as ->; [| done].
    induction (length ports); [done |]. simpl.
    by rewrite filter_cons_False.
  - unfold in_flight; simpl.
    assert (filter (fun t => is_in_flight t = true)
              (replicate (length ports) Waiting) = []) as ->; [| done].
    induction (length ports); [done |]. simpl.
    by rewrite filter_cons_False.
Qed.

Lemma slots_reachable (concurrency : Z) cb0 s0 sched s :
  initial ports concurrency cb0 = Return s0 ->
  run' s0 sched = Some s ->
  0 <= concurrency /\ slots (Z.to_nat concurrency) s.
Proof.
  intros [Hc H0]%slots_initial Hrun. split; [done |].
  eapply (run_invariant (slots (Z.to_nat concurrency))); eauto.
  intros. by eapply slots_step.
Qed.

(** *** The progress callback and the results of the tasks *)

Lemma progress_calls_app t1 t2 :
  progress_calls (t1 ++ t2) = progress_calls t1 ++ progress_calls t2.
Proof. apply omap_app. Qed.

Lemma progress_step s a s' :
  progress_inv s -> step' s a = Some s' -> progress_inv s'.
Proof.
  unfold progress_inv, finished. intros Hinv Hstep.
  destruct (step_inv _ _ _ Hstep)
    as [(i & v & -> & Ht & Hv & ->)
       | (i & w & port & st & evs & r & -> & Ht & Hp & Hb & ->)]; simpl.
  - rewrite progress_calls_app, app_nil_r.
    destruct progress_callback; [| done].
    destruct Hinv as [Hnd Hin]. split; [done |]. intros j. rewrite Hin.
    split; intros [r Hr]; exists r.
    + rewrite list_lookup_insert_ne; [done |]. congruence.
    + apply list_lookup_insert_Some in Hr as [(? & ? & ?) | [_ ?]]; done.
  - apply scan_with_semaphore_spec in Hb as (o & _ & Hb).
    rewrite progress_calls_app.
    destruct progress_callback as [f |]; destruct Hb as (_ & -> & _);
      simpl; [| by rewrite app_nil_r].
    destruct Hinv as [Hnd Hin].
    assert (i ∉ progress_calls (trace s)) as Hi.
    { rewrite Hin. intros [r' Hr']. congruence. }
    split.
    + apply NoDup_app. split; [done |]. split; [| apply NoDup_singleton].
      intros j Hj ->%list_elem_of_singleton. done.
    + intros j. rewrite elem_of_app, list_elem_of_singleton, Hin.
      split.
      * intros [[r' Hr'] | ->].
        -- exists r'. rewrite list_lookup_insert_ne; [done |]. congruence.
        -- eexists. apply list_lookup_insert_eq. by eapply lookup_lt_Some.
      * intros [r' Hr'].
        apply list_lookup_insert_Some in Hr' as [(? & ? & ?) | [_ ?]];
          [by right | left; by exists r'].
Qed.

Lemma results_step s a s' :
  results_inv s -> step' s a = Some s' -> results_inv s'.
Proof.
  unfold results_inv. intros Hinv Hstep j r' Hj.
  destruct (step_inv _ _ _ Hstep)
    as [(i & v & -> & Ht & Hv & ->)
       | (i & w & port & st & evs & r & -> & Ht & Hp & Hb & ->)];
    simpl in Hj;
    apply list_lookup_insert_Some in Hj as [(<- & Hr & ?) | [_ Hj]];
    eauto; [done |].
  simplify_eq. apply scan_with_semaphore_spec in Hb as (o & Ho & Hb).
  exists port, w, o. do 2 (split; [done |]).
  destruct progress_callback as [f |]; destruct Hb as (_ & _ & ->);
    [| by left].
  destruct (f (cb_state s)) as [st' [[] | e]] eqn:Hf; simpl; [by left |].
  right. exists f, (cb_state s), e. by rewrite Hf.
Qed.

Lemma initial_tasks (concurrency : Z) (cb0 : CB) s0 :
  initial ports concurrency cb0 = Return s0 ->
  tasks s0 = replicate (length ports) Waiting /\ trace s0 = [].
Proof.
  unfold initial, Semaphore. destruct (concurrency <? 0); [done |].
  by intros [= <-].
Qed.

Lemma invariants_reachable (concurrency : Z) (cb0 : CB) s0 sched s :
  initial ports concurrency cb0 = Return s0 ->
  run' s0 sched = Some s ->
  progress_inv s /\ results_inv s.
Proof.
  intros [Ht Htr]%initial_tasks Hrun.
  assert (forall i r, tasks s0 !! i <> Some (Done r)) as Hnone.
  { intros i r. rewrite Ht. by intros [? _]%lookup_replicate. }
  split.
  - eapply (run_invariant progress_inv); eauto using progress_step.
    unfold progress_inv, finished. rewrite Htr.
    destruct progress_callback; [| done]. split; [constructor |].
    intros i. split; [by intros ?%elem_of_nil | intros [r Hr]].
    by apply Hnone in Hr.
  - eapply (run_invariant results_inv); eauto using results_step.
    intros i r Hr. by apply Hnone in Hr.
Qed.

(** Once [gather] returns, every task has finished. *)
Lemma gathered_spec (s : @loop_state CB) rs :
  gathered s = Some rs <-> tasks s = Done <$> rs.
Proof.
  unfold gathered. rewrite mapM_Some. split.
  - induction 1 as [| t r ts rs' Ht _ IH]; [done |].
    destruct t; simplify_eq/=. by f_equal.
  - intros ->. induction rs; constructor; done.
Qed.

End SchedulerProofs.

(** *** The loop over the gathered results *)

Lemma filter_exceptions_fmap rs : filter_exceptions rs = substitute <$> rs.
Proof.
  unfold filter_exceptions.
  enough (forall acc,
    foldl (fun valid_results result =>
             match result with
             | Return t => valid_results ++ [t]
             | Raise _ => valid_results ++ [sentinel]
             end) acc rs = acc ++ (substitute <$> rs)) as H by apply H.
  induction rs as [| r rs IH]; intros acc; simpl.
  - by rewrite app_nil_r.
  - rewrite IH. destruct r; simpl; by rewrite <- app_assoc.
Qed.

Lemma scan_ports_returns {CB} ip ports timeout cb concurrency (cb0 : CB)
  s0 schedule s rs :
  initial ports concurrency cb0 = Return s0 ->
  run ip ports timeout cb s0 schedule = Some s ->
  gathered s = Some rs ->
  scan_ports ip ports timeout cb concurrency cb0 schedule
  = Some (Return (filter_exceptions rs)).
Proof.
  unfold scan_ports. intros -> Hrun Hg. simpl. rewrite Hrun. simpl.
  by rewrite Hg.
Qed.

Lemma scan_ports_inv {CB} ip ports timeout cb concurrency (cb0 : CB)
  schedule results :
  scan_ports ip ports timeout cb concurrency cb0 schedule
  = Some (Return results) ->
  exists s0 s rs,
    initial ports concurrency cb0 = Return s0 /\
    run ip ports timeout cb s0 schedule = Some s /\
    gathered s = Some rs /\ results = filter_exceptions rs.
Proof.
  unfold scan_ports. destruct (initial ports concurrency cb0) as [s0 |];
    [| done].
  destruct (run ip ports timeout cb s0 schedule) as [s |] eqn:Hrun;
    [| done].
  simpl. destruct (gathered s) as [rs |] eqn:Hg; [| done].
  intros [= <-]. by exists s0, s, rs.
Qed.

(** C3. When [gather] hands back an exception for some task, [scan_ports]
    does not raise: it returns a list with one entry per launched task, in
    which the entry of every faulted task is the sentinel
    [(0, "error", None)] and the entry of every other task is the tuple
    that task returned. *)
Theorem faulted_task_becomes_sentinel {CB : Type} (ip : string)
  (ports : list Z) (timeout : float) (cb : option callback)
  (concurrency : Z) (cb0 : CB) (s0 s : loop_state) (schedule : list action)
  (rs : list (completion outcome)) :
  initial ports concurrency cb0 = Return s0 ->
  run ip ports timeout cb s0 schedule = Some s ->
  gathered s = Some rs ->
  exists results,
    scan_ports ip ports timeout cb concurrency cb0 schedule
    = Some (Return results) /\
    length results = length ports /\
    forall i : nat,
      (forall e, rs !! i = Some (Raise e) -> results !! i = Some sentinel) /\
      (forall t, rs !! i = Some (Return t) -> results !! i = Some t).
Proof.
  intros Hinit Hrun Hg. exists (filter_exceptions rs).
  split; [by eapply scan_ports_returns |].
  rewrite filter_exceptions_fmap, length_fmap. split.
  - destruct (slots_reachable _ _ _ _ _ _ _ _ _ Hinit Hrun) as [_ [Hlen _ _]].
    apply gathered_spec in Hg. rewrite Hg, length_fmap in Hlen. done.
  - intros i. split; intros x Hx; by rewrite list_lookup_fmap, Hx.
Qed.

(** C10. The list [scan_ports] returns is aligned with [ports]: it has the
    same length, and its i-th entry is either the tuple [scan_port]
    returned for [ports[i]], which carries that port, or the sentinel. *)
Theorem scan_ports_positional {CB : Type} (ip : string) (ports : list Z)
  (timeout : float) (cb : option callback) (concurrency : Z) (cb0 : CB)
  (schedule : list action) (results : list outcome) :
  scan_ports ip ports timeout cb concurrency cb0 schedule
  = Some (Return results) ->
  length results = length ports /\
  forall (i : nat) (port : Z), ports !! i = Some port ->
    exists o, results !! i = Some o /\
      (o = sentinel \/
       outcome_port o = port /\
       exists w, scan_port ip port timeout w = Return o).
Proof.
  intros (s0 & s & rs & Hinit & Hrun & Hg & ->)%scan_ports_inv.
  destruct (slots_reachable _ _ _ _ _ _ _ _ _ Hinit Hrun) as [_ [Hlen _ _]].
  destruct (invariants_reachable _ _ _ _ _ _ _ _ _ Hinit Hrun) as [_ Hres].
  apply gathered_spec in Hg. rewrite Hg, length_fmap in Hlen.
  rewrite filter_exceptions_fmap, length_fmap. split; [done |].
  intros i port Hp.
  destruct (lookup_lt_is_Some_2 rs i) as [r Hr].
  { rewrite Hlen. by eapply lookup_lt_Some. }
  exists (substitute r). rewrite list_lookup_fmap, Hr. split; [done |].
  destruct (Hres i r) as (port' & w & o & Hp' & Hw & Hcase).
  { by rewrite Hg, list_lookup_fmap, Hr. }
  simplify_eq. destruct Hcase as [-> | (f & st & e & _ & _ & ->)];
    [right | by left].
  simpl. split; [| by exists w].
  destruct (scan_port_returns ip port timeout w) as (? & ? & Hw').
  rewrite Hw in Hw'. by simplify_eq.
Qed.

Lemma scan_ports_positional_witness :
  length [(22, "open", Some 62); (80, "closed", None);
          (443, "timeout", None)] = length [22; 80; 443] /\
  forall (i : nat) (port : Z), [22; 80; 443] !! i = Some port ->
    exists o,
      [(22, "open", Some 62); (80, "closed", None);
       (443, "timeout", None)] !! i = Some o /\
      (o = sentinel \/
       outcome_port o = port /\
       exists w, scan_port "192.0.2.1" port 1%float w = Return o).
Proof.
  apply (scan_ports_positional "192.0.2.1" [22; 80; 443] 1%float
           (Some Scenario.counting) 2 0%nat Scenario.interleaved).
  vm_compute. reflexivity.
Defined.

(** C5. With a progress callback, once [gather] has returned the callback
    has been called once by each task, that is once per requested port and
    [len(ports)] times in all, whatever the probes returned. *)
Theorem progress_once_per_port {CB : Type} (ip : string) (ports : list Z)
  (timeout : float) (f : callback) (concurrency : Z) (cb0 : CB)
  (s0 s : loop_state) (schedule : list action) :
  initial ports concurrency cb0 = Return s0 ->
  run ip ports timeout (Some f) s0 schedule = Some s ->
  is_Some (gathered s) ->
  progress_calls (trace s) ≡ₚ seq 0 (length ports) /\
  length (progress_calls (trace s)) = length ports.
Proof.
  intros Hinit Hrun [rs Hg].
  destruct (slots_reachable _ _ _ _ _ _ _ _ _ Hinit Hrun) as [_ [Hlen _ _]].
  destruct (invariants_reachable _ _ _ _ _ _ _ _ _ Hinit Hrun)
    as [[Hnd Hin] _].
  apply gathered_spec in Hg.
  assert (progress_calls (trace s) ≡ₚ seq 0 (length ports)) as Hperm.
  { apply NoDup_Permutation; [done | apply NoDup_seq |].
    intros i. rewrite Hin, elem_of_seq. unfold finished. split.
    - intros [r Hr%lookup_lt_Some]. lia.
    - intros [_ Hi]. simpl in Hi.
      rewrite <- Hlen, Hg, length_fmap in Hi.
      apply lookup_lt_is_Some_2 in Hi as [r Hr].
      exists r. by rewrite Hg, list_lookup_fmap, Hr. }
  split; [done |]. by rewrite Hperm, length_seq.
Qed.

(** C6. In every state the event loop reaches, the number of probes in
    flight (calls of [scan_port] that have not returned, which is the
    number of entries minus exits in the trace) is at most the
    concurrency limit. *)
Theorem in_flight_bounded {CB : Type} (ip : string) (ports : list Z)
  (timeout : float) (cb : option callback) (concurrency : Z) (cb0 : CB)
  (s0 s : loop_state) (schedule : list action) :
  initial ports concurrency cb0 = Return s0 ->
  run ip ports timeout cb s0 schedule = Some s ->
  Z.of_nat (in_flight s) <= concurrency /\
  (probe_entries (trace s) - probe_exits (trace s))%nat = in_flight s.
Proof.
  intros Hinit Hrun.
  destruct (slots_reachable _ _ _ _ _ _ _ _ _ Hinit Hrun)
    as [Hc [_ Hsum Htr]].
  split; lia.
Qed.

(** *** The scan finishes *)

(** Running the probes one after the other is an execution of the loop
    as soon as the semaphore has one slot. *)
Lemma run_sequential {CB} ip ports timeout cb (w : nat -> attempt) (m : nat) :
  forall (s : @loop_state CB) (finished : list (completion outcome)),
    tasks s = (Done <$> finished) ++ replicate m Waiting ->
    (length finished + m = length ports)%nat ->
    (0 < sem_value s)%nat ->
    exists s',
      run ip ports timeout cb s
        (flat_map (fun i => [Acquire i; Complete i (w i)])
           (seq (length finished) m)) = Some s' /\
      is_Some (gathered s').
Proof.
  induction m as [| m IH]; intros s fin Ht Hlen Hsem.
  - exists s. split; [done |]. exists fin. apply gathered_spec.
    by rewrite Ht, app_nil_r.
  - assert (tasks s !! length fin = Some Waiting) as Hw.
    { rewrite Ht, lookup_app_r by (rewrite length_fmap; lia).
      by rewrite length_fmap, Nat.sub_diag. }
    destruct (lookup_lt_is_Some_2 ports (length fin)) as [port Hp]; [lia |].
    destruct (sem_value s) as [| v] eqn:Hv; [lia |].
    destruct (scan_with_semaphore ip timeout cb (length fin) port
                (w (length fin)) (cb_state s)) as [[st evs] r] eqn:Hb.
    set (s2 := LoopState (S v)
                 ((Done <$> (fin ++ [r])) ++ replicate m Waiting) st
                 ((trace s ++ [ProbeEnter (length fin)]) ++ evs)).
    destruct (IH s2 (fin ++ [r])) as (s' & Hrun & Hg).
    { done. }
    { rewrite length_app. simpl. lia. }
    { simpl. lia. }
    exists s'. split; [| done].
    rewrite length_app, Nat.add_1_r in Hrun.
    set (s1 := LoopState v (<[length fin := InFlight]> (tasks s))
                 (cb_state s) (trace s ++ [ProbeEnter (length fin)])).
    assert (step ip ports timeout cb s (Acquire (length fin)) = Some s1)
      as H1 by (simpl; by rewrite Hw, Hv).
    assert (step ip ports timeout cb s1 (Complete (length fin)
              (w (length fin))) = Some s2) as H2.
    { simpl. rewrite list_lookup_insert_eq by (by eapply lookup_lt_Some).
      rewrite Hp, Hb. unfold s2. do 2 f_equal.
      rewrite list_insert_insert_eq, Ht.
      rewrite insert_app_r_alt by (rewrite length_fmap; lia).
      rewrite length_fmap, Nat.sub_diag, fmap_app, <- app_assoc. done. }
    cbn [seq flat_map app run]. rewrite H1. cbn [mbind option_bind].
    rewrite H2. done.
Qed.

(** For a positive concurrency limit [scan_ports] returns, whatever the
    ports, the callback and the behaviour of the network. *)
Lemma scan_ports_sequential {CB} ip ports timeout cb concurrency (cb0 : CB)
  (w : nat -> attempt) :
  0 < concurrency ->
  exists results,
    scan_ports ip ports timeout cb concurrency cb0 (sequential ports w)
    = Some (Return results).
Proof.
  intros Hc.
  set (s0 := LoopState (Z.to_nat concurrency)
               (replicate (length ports) Waiting) cb0 []).
  assert (initial ports concurrency cb0 = Return s0) as Hinit.
  { unfold initial, Semaphore.
    by destruct (Z.ltb_spec concurrency 0); [lia |]. }
  destruct (run_sequential ip ports timeout cb w (length ports) s0 [])
    as (s' & Hrun & [rs Hg]); simpl; [done | done | lia |].
  exists (filter_exceptions rs). by eapply scan_ports_returns.
Qed.

Lemma tasks_cases (ts : list task) :
  (exists i, ts !! i = Some InFlight)
  \/ (filter (fun t => is_in_flight t = true) ts = []
      /\ ((exists i, ts !! i = Some Waiting) \/ exists rs, ts = Done <$> rs)).
Proof.
  induction ts as [| t ts IH].
  - right. split; [done |]. right. by exists [].
  - destruct t as [| | r].
    + destruct IH as [[i Hi] | [Hf _]]; [left; by exists (S i) |].
      right. split; [by rewrite filter_cons_False | left; by exists 0%nat].
    + left. by exists 0%nat.
    + destruct IH as [[i Hi] | [Hf Hrest]]; [left; by exists (S i) |].
      right. split; [by rewrite filter_cons_False |].
      destruct Hrest as [[i Hi] | [rs ->]];
        [left; by exists (S i) | right; by exists (r :: rs)].
Qed.

(** With a positive limit the loop cannot get stuck before [gather]
    returns: a probe in flight can finish, and when none is in flight a
    slot is free for a waiting task. *)
Lemma no_deadlock {CB} ip ports timeout cb (c : nat) (s : @loop_state CB)
  (w : attempt) :
  slots ports c s -> (0 < c)%nat -> gathered s = None ->
  exists a s', step ip ports timeout cb s a = Some s'.
Proof.
  intros [Hlen Hsum _] Hc Hg.
  destruct (tasks_cases (tasks s)) as [[i Hi] | [Hf [[i Hi] | [rs Hrs]]]].
  - destruct (lookup_lt_is_Some_2 ports i) as [port Hp].
    { rewrite <- Hlen. by eapply lookup_lt_Some. }
    exists (Complete i w). simpl. rewrite Hi, Hp.
    destruct (scan_with_semaphore _ _ _ _ _ _ _) as [[? ?] ?]. eauto.
  - unfold in_flight in Hsum. rewrite Hf in Hsum. simpl in Hsum.
    exists (Acquire i). simpl. rewrite Hi.
    destruct (sem_value s); [lia | eauto].
  - apply gathered_spec in Hrs. congruence.
Qed.

Lemma steps_left_step {CB} ip ports timeout cb (s s' : @loop_state CB) a :
  step ip ports timeout cb s a = Some s' ->
  steps_left s = S (steps_left s').
Proof.
  intros Hstep. unfold steps_left.
  destruct (step_inv _ _ _ _ _ _ _ Hstep)
    as [(i & v & -> & Ht & Hv & ->)
       | (i & w & port & st & evs & r & -> & Ht & Hp & Hb & ->)]; simpl.
  - pose proof (length_filter_insert (fun t => is_in_flight t = true)
                  (tasks s) i Waiting InFlight Ht) as H1.
    pose proof (length_filter_insert (fun t => is_waiting t = true)
                  (tasks s) i Waiting InFlight Ht) as H2.
    repeat case_decide; try done. lia.
  - pose proof (length_filter_insert (fun t => is_in_flight t = true)
                  (tasks s) i InFlight (Done r) Ht) as H1.
    pose proof (length_filter_insert (fun t => is_waiting t = true)
                  (tasks s) i InFlight (Done r) Ht) as H2.
    repeat case_decide; try done. lia.
Qed.

(** Every execution has at most two steps per port. *)
Lemma run_length {CB} ip ports timeout cb (sched : list action) :
  forall s s' : @loop_state CB,
    run ip ports timeout cb s sched = Some s' ->
    (length sched + steps_left s' = steps_left s)%nat.
Proof.
  induction sched as [| a sched IH]; intros s s' Hrun; simpl in *.
  - by simplify_eq.
  - destruct (step ip ports timeout cb s a) as [s1 |] eqn:Hs; [| done].
    simpl in Hrun. apply IH in Hrun. apply steps_left_step in Hs. lia.
Qed.

(** *** The theorems above on concrete scans *)

Lemma faulted_task_becomes_sentinel_witness :
  exists results,
    scan_ports "192.0.2.1" [22; 80; 443] 1%float
      (Some Scenario.fails_second) 2 0%nat Scenario.interleaved
    = Some (Return results) /\
    length results = length [22; 80; 443] /\
    forall i : nat,
      (forall e,
         Scenario.gathered_with_fault !! i = Some (Raise e) ->
         results !! i = Some sentinel) /\
      (forall t,
         Scenario.gathered_with_fault !! i = Some (Return t) ->
         results !! i = Some t).
Proof.
  eapply (faulted_task_becomes_sentinel "192.0.2.1" [22; 80; 443] 1%float
            (Some Scenario.fails_second) 2 0%nat);
    vm_compute; reflexivity.
Defined.

Lemma progress_once_per_port_witness :
  exists s : @loop_state nat,
    run "192.0.2.1" [22; 80; 443] 1%float (Some Scenario.counting)
      (LoopState 2 [Waiting; Waiting; Waiting] 0%nat [])
      Scenario.interleaved = Some s /\
    cb_state s = 3%nat /\
    progress_calls (trace s) = [1; 0; 2]%nat /\
    progress_calls (trace s) ≡ₚ seq 0 (length [22; 80; 443]) /\
    length (progress_calls (trace s)) = length [22; 80; 443].
Proof.
  eexists. split; [vm_compute; reflexivity |].
  split; [reflexivity |]. split; [reflexivity |].
  eapply (progress_once_per_port "192.0.2.1" [22; 80; 443] 1%float
            Scenario.counting 2 0%nat _ _ Scenario.interleaved);
    [vm_compute; reflexivity | vm_compute; reflexivity |].
  eexists. vm_compute. reflexivity.
Defined.

Lemma in_flight_bounded_witness :
  exists s : @loop_state nat,
    run "192.0.2.1" [22; 80; 443] 1%float (Some Scenario.counting)
      (LoopState 2 [Waiting; Waiting; Waiting] 0%nat [])
      [Acquire 0; Acquire 1] = Some s /\
    step "192.0.2.1" [22; 80; 443] 1%float (Some Scenario.counting) s
      (Acquire 2) = None /\
    in_flight s = 2%nat /\
    Z.of_nat (in_flight s) <= 2 /\
    (probe_entries (trace s) - probe_exits (trace s))%nat = in_flight s.
Proof.
  eexists. split; [vm_compute; reflexivity |].
  split; [reflexivity |]. split; [reflexivity |].
  eapply (in_flight_bounded "192.0.2.1" [22; 80; 443] 1%float
            (Some Scenario.counting) 2 0%nat _ _ [Acquire 0; Acquire 1]);
    vm_compute; reflexivity.
Defined.

(** ** Sorting by key *)

Section SortProofs.

Context {A K : Type}.
Variable leb : K -> K -> bool.
Hypothesis leb_total : forall a b, leb a b = false -> leb b a = true.

Lemma insert_keyed_Permutation (x : K * A) l :
  insert_keyed leb x l ≡ₚ x :: l.
Proof.
  induction l as [| y l IH]; simpl; [done |].
  destruct (leb x.1 y.1); [done |]. rewrite IH. apply Permutation_swap.
Qed.

Lemma sort_keyed_Permutation (l : list (K * A)) : sort_keyed leb l ≡ₚ l.
Proof.
  induction l as [| x l IH]; simpl; [done |].
  by rewrite insert_keyed_Permutation, IH.
Qed.

Lemma insert_keyed_Sorted (x : K * A) l :
  Sorted (key_le leb) l -> Sorted (key_le leb) (insert_keyed leb x l).
Proof.
  induction 1 as [| y l Hl IH Hhd]; simpl.
  - repeat constructor.
  - destruct (leb x.1 y.1) eqn:Hxy.
    + repeat constructor; done.
    + constructor; [done |].
      destruct Hhd as [| z l' Hyz]; simpl.
      * constructor. by apply leb_total.
      * destruct (leb x.1 z.1); constructor; [by apply leb_total | done].
Qed.

Lemma sort_keyed_Sorted (l : list (K * A)) : Sorted (key_le leb) (sort_keyed leb l).
Proof.
  induction l; simpl; [constructor | by apply insert_keyed_Sorted].
Qed.

(** Sorting a sorted list changes nothing: the sort is stable. *)
Lemma sort_keyed_id (l : list (K * A)) :
  Sorted (key_le leb) l -> sort_keyed leb l = l.
Proof.
  induction 1 as [| x l Hl IH Hhd]; simpl; [done |].
  rewrite IH. destruct Hhd as [| y l' Hxy]; simpl; [done |].
  unfold key_le in Hxy. by rewrite Hxy.
Qed.

Lemma sort_keyed_idempotent (l : list (K * A)) :
  sort_keyed leb (sort_keyed leb l) = sort_keyed leb l.
Proof. apply sort_keyed_id, sort_keyed_Sorted. Qed.

(** The sort looks at the keys only. *)
Lemma insert_keyed_fmap {B} (f : A -> B) (x : K * A) (k : list (K * A)) :
  insert_keyed leb (prod_map id f x) (prod_map id f <$> k)
  = prod_map id f <$> insert_keyed leb x k.
Proof.
  induction k as [| y k IHk]; simpl; [done |].
  destruct (leb x.1 y.1); simpl; [done | by f_equal].
Qed.

Lemma sort_keyed_fmap {B} (f : A -> B) (l : list (K * A)) :
  sort_keyed leb (prod_map id f <$> l) = prod_map id f <$> sort_keyed leb l.
Proof.
  unfold sort_keyed. induction l as [| x l IH]; [done |].
  rewrite fmap_cons. cbn [foldr]. rewrite IH. apply insert_keyed_fmap.
Qed.

End SortProofs.

Lemma Zleb_total (a b : Z) : (a <=? b) = false -> (b <=? a) = true.
Proof. lia. Qed.

(** ** [process_results] *)

Lemma result_dict_port (o : outcome) :
  result_dict o !! "port" = Some (VInt (outcome_port o)).
Proof. by destruct o as [[port status] time_ms]. Qed.

Lemma result_dict_status (o : outcome) :
  result_dict o !! "status" = Some (VStr (outcome_status o)).
Proof. by destruct o as [[port status] time_ms]. Qed.

Lemma item_keys_result_dicts (results : list outcome) :
  item_keys "port" (result_dict <$> results)
  = Return (VInt <$> (outcome_port <$> results)).
Proof.
  induction results as [| o results IH]; [done |].
  rewrite !fmap_cons. cbn [item_keys]. unfold getitem.
  rewrite result_dict_port, IH. done.
Qed.

Lemma mapM_int_key (ps : list Z) : mapM int_key (VInt <$> ps) = Some ps.
Proof. apply mapM_Some. induction ps; constructor; done. Qed.

Lemma zip_decorate {X Y} (f : X -> Y) (l : list X) :
  zip (f <$> l) l = (fun x => (f x, x)) <$> l.
Proof. induction l; simpl; [done | by f_equal]. Qed.

Lemma sorted_dicts (results : list outcome) :
  (sort_keyed Z.leb (zip (outcome_port <$> results)
                       (result_dict <$> results))).*2
  = result_dict <$> sort_outcomes results.
Proof.
  unfold sort_outcomes.
  rewrite <- (list_fmap_id (outcome_port <$> results)) at 1.
  rewrite <- prod_map_zip, sort_keyed_fmap, zip_decorate.
  rewrite <- !list_fmap_compose. done.
Qed.

Lemma sort_outcomes_short (results : list outcome) :
  (length results <= 1)%nat -> sort_outcomes results = results.
Proof. destruct results as [| o [| o' results]]; simpl; (done || lia). Qed.

Lemma process_results_spec self (results : list outcome) :
  process_results self results
  = Return (App (result_dict <$> sort_outcomes results)).
Proof.
  unfold process_results.
  assert (forall acc,
    foldl (fun self o => App (scan_results self ++ [result_dict o]))
      (App acc) results = App (acc ++ (result_dict <$> results))) as ->.
  { induction results as [| o results IH]; intros acc; simpl.
    - by rewrite app_nil_r.
    - rewrite IH, <- app_assoc. done. }
  simpl. unfold sort_by_item. rewrite item_keys_result_dicts.
  cbn [mbind completion_bind bind]. rewrite length_fmap.
  destruct (Nat.leb_spec (length results) 1) as [Hshort | Hlong].
  - by rewrite sort_outcomes_short.
  - by rewrite mapM_int_key, sorted_dicts.
Qed.


Lemma sort_outcomes_keys results :
  outcome_port <$> sort_outcomes results
  = (sort_keyed Z.leb ((fun o => (outcome_port o, o)) <$> results)).*1.
Proof.
  unfold sort_outcomes.
  set (l := sort_keyed Z.leb _).
  assert (Forall (fun p : Z * outcome => p.1 = outcome_port p.2) l)
    as Hkeys.
  { unfold l. rewrite sort_keyed_Permutation.
    apply Forall_fmap, Forall_true. done. }
  clearbody l. induction Hkeys as [| p l Hp _ IH]; [done |].
  rewrite !fmap_cons. by f_equal.
Qed.


Lemma sort_outcomes_idempotent results :
  sort_outcomes (sort_outcomes results) = sort_outcomes results.
Proof.
  unfold sort_outcomes at 1 3.
  assert (((fun o => (outcome_port o, o)) <$> sort_outcomes results)
          = sort_keyed Z.leb ((fun o => (outcome_port o, o)) <$> results))
    as ->.
  { rewrite <- (zip_fst_snd (sort_keyed Z.leb _)).
    rewrite <- sort_outcomes_keys. fold (sort_outcomes results).
    by rewrite zip_decorate. }
  by rewrite (sort_keyed_idempotent _ Zleb_total).
Qed.

(** ** The scan result *)

Lemma Sorted_le_NoDup_lt (l : list Z) :
  Sorted Z.le l -> NoDup l -> StronglySorted Z.lt l.
Proof.
  intros Hs%Sorted_StronglySorted Hnd; [| intros ???; lia].
  induction Hs as [| x l Hl IH Hx]; [constructor |].
  apply NoDup_cons in Hnd as [Hnotin Hnd]. constructor; [by apply IH |].
  rewrite Forall_forall in *. intros y Hy. specialize (Hx y Hy).
  assert (x <> y) by (intros ->; done). lia.
Qed.






(** ** [create_summary] *)

Lemma count_cons name result results :
  count name (result :: results)
  = ((if decide (status_of result = VStr name) then 1 else 0)
     + count name results)%nat.
Proof. unfold count. rewrite filter_cons. by case_decide. Qed.

(** The loop of [create_summary] adds to every key of the dictionary the
    number of results with that status, and keeps the list as it is. *)
Lemma foldl_count_status (results : list (gmap string value)) :
  forall (fr : summary_frame) (name : string),
    summary (foldl count_status fr results) !! name
    = (fun n => n + Z.of_nat (count name results)) <$> (summary fr !! name)
    /\ results_arg (foldl count_status fr results) = results_arg fr.
Proof.
  induction results as [| result results IH]; intros fr name.
  - split; [| done]. simpl. destruct (summary fr !! name); simpl; [| done].
    f_equal. unfold count. simpl. lia.
  - cbn [foldl]. destruct (IH (count_status fr result) name) as [-> ->].
    rewrite count_cons. unfold count_status. fold (status_of result).
    unfold in_summary.
    destruct (status_of result) as [| n | key] eqn:Hst;
      try (split; [| done]; rewrite decide_False by done;
           destruct (summary fr !! name); simpl; [f_equal; lia | done]).
    destruct (decide (is_Some (summary fr !! key))) as [[n Hn] | Hnone].
    + split; [| done]. simpl. rewrite Hn. simpl.
      destruct (decide (key = name)) as [-> | Hne].
      * rewrite lookup_insert_eq, Hn, decide_True by done. simpl.
        f_equal. lia.
      * rewrite lookup_insert_ne by done.
        rewrite decide_False by congruence.
        destruct (summary fr !! name); simpl; [f_equal; lia | done].
    + split; [| done]. destruct (decide (key = name)) as [-> | Hne].
      * apply eq_None_not_Some in Hnone. by rewrite Hnone.
      * rewrite decide_False by congruence.
        destruct (summary fr !! name); simpl; [f_equal; lia | done].
Qed.

Lemma create_summary_lookup (results : list (gmap string value)) name :
  name ∈ statuses ->
  create_summary results !! name = Some (Z.of_nat (count name results)).
Proof.
  intros Hname. unfold create_summary, create_summary_frame.
  cbn [results_arg].
  destruct (foldl_count_status results
              (SummaryFrame results
                 (<["total" := Z.of_nat (length results)]>
                    (<["open" := 0]> (<["closed" := 0]>
                       (<["timeout" := 0]> (<["error" := 0]> ∅))))))
              name) as [-> _].
  unfold statuses in Hname.
  repeat (apply elem_of_cons in Hname as [-> | Hname]; [done |]).
  by apply elem_of_nil in Hname.
Qed.

Lemma create_summary_total (results : list (gmap string value)) :
  create_summary results !! "total"
  = Some (Z.of_nat (length results) + Z.of_nat (count "total" results)).
Proof.
  unfold create_summary, create_summary_frame. cbn [results_arg].
  by destruct (foldl_count_status results
              (SummaryFrame results
                 (<["total" := Z.of_nat (length results)]>
                    (<["open" := 0]> (<["closed" := 0]>
                       (<["timeout" := 0]> (<["error" := 0]> ∅))))))
              "total") as [-> _].
Qed.

Lemma recognized_counts (results : list (gmap string value)) :
  Forall recognized results ->
  count "total" results = 0%nat /\
  (count "open" results + count "closed" results + count "timeout" results
   + count "error" results = length results)%nat.
Proof.
  induction 1 as [| result results (name & Hname & Hst) _ [IH0 IH]];
    [done |].
  rewrite !count_cons, Hst. unfold statuses in Hname. simpl.
  repeat (apply elem_of_cons in Hname as [-> | Hname];
          [repeat case_decide; simplify_eq; lia |]).
  by apply elem_of_nil in Hname.
Qed.

(** C4, as the code has it. [create_summary] counts under each of the four
    statuses the outcomes that carry it, an outcome without a status being
    counted under "error"; an outcome with any other status is counted
    under none of the four. When every outcome has one of the four
    statuses or none, total = open + closed + timeout + error = the number
    of outcomes. *)
Theorem create_summary_counts (results : list (gmap string value)) :
  (forall name, name ∈ statuses ->
     create_summary results !! name = Some (Z.of_nat (count name results)))
  /\ (forall result, result !! "status" = None ->
        create_summary (result :: results) !! "error"
        = Some (Z.of_nat (S (count "error" results))))
  /\ (Forall recognized results ->
      exists n_open n_closed n_timeout n_error : Z,
        create_summary results !! "open" = Some n_open /\
        create_summary results !! "closed" = Some n_closed /\
        create_summary results !! "timeout" = Some n_timeout /\
        create_summary results !! "error" = Some n_error /\
        create_summary results !! "total" = Some (Z.of_nat (length results))
        /\ n_open + n_closed + n_timeout + n_error
           = Z.of_nat (length results)).
Proof.
  split; [intros; by apply create_summary_lookup |]. split.
  - intros result Hnone.
    rewrite create_summary_lookup by (unfold statuses; set_solver).
    rewrite count_cons. unfold status_of. rewrite Hnone. done.
  - intros [H0 Hsum]%recognized_counts.
    exists (Z.of_nat (count "open" results)),
      (Z.of_nat (count "closed" results)),
      (Z.of_nat (count "timeout" results)),
      (Z.of_nat (count "error" results)).
    rewrite !create_summary_lookup by (unfold statuses; set_solver).
    rewrite create_summary_total, H0.
    repeat (split; [done || (f_equal; lia) |]). lia.
Qed.

(** C4 as stated fails: an outcome with the status "filtered" is not
    counted under "error", and the four counts no longer add up to the
    number of outcomes. *)
Lemma unrecognized_status_not_counted :
  create_summary [ {[ "port" := VInt 8080; "status" := VStr "filtered" ]} ]
  = {[ "total" := 1; "open" := 0; "closed" := 0; "timeout" := 0;
       "error" := 0 ]}
  /\ create_summary
       [ {[ "port" := VInt 8080; "status" := VStr "filtered" ]} ] !! "error"
     = Some 0
  /\ 0 + 0 + 0 + 0
     <> Z.of_nat
          (length [ ({[ "port" := VInt 8080; "status" := VStr "filtered" ]}
                     : gmap string value) ]).
Proof. split; [| split]; [vm_compute; reflexivity .. | done]. Qed.

(** ** Aggregation *)

Lemma sort_by_item_result_dicts (outcomes : list outcome) :
  sort_by_item "port" (result_dict <$> outcomes)
  = Return (result_dict <$> sort_outcomes outcomes).
Proof.
  unfold sort_by_item. rewrite item_keys_result_dicts.
  cbn [mbind completion_bind bind]. rewrite length_fmap.
  destruct (Nat.leb_spec (length outcomes) 1) as [Hshort | Hlong].
  - by rewrite sort_outcomes_short.
  - by rewrite mapM_int_key, sorted_dicts.
Qed.

(** C8. Aggregation has no hidden state and is idempotent: the processed
    result does not depend on what the application held before; sorting
    and summarising the result once more gives the same result and the
    same summary; and [create_summary] leaves the list it is given as it
    was. *)
Theorem aggregation_idempotent (outcomes : list outcome) :
  exists (scan_result : list (gmap string value)) (summary : gmap string Z),
    (forall self : PortScannerApp,
       process_results self outcomes = Return (App scan_result)) /\
    aggregate (result_dict <$> outcomes) = Return (scan_result, summary) /\
    aggregate scan_result = Return (scan_result, summary) /\
    forall results : list (gmap string value),
      results_arg (create_summary_frame results) = results.
Proof.
  exists (result_dict <$> sort_outcomes outcomes),
    (create_summary (result_dict <$> sort_outcomes outcomes)).
  split; [intros; apply process_results_spec |].
  unfold aggregate. rewrite !sort_by_item_result_dicts.
  rewrite sort_outcomes_idempotent. do 2 (split; [done |]).
  intros results. unfold create_summary_frame.
  exact (proj2 (foldl_count_status results _ "")).
Qed.

(** ** [parse_ports] *)

Lemma sorted_strictly (ports : gset Z) : StronglySorted Z.lt (sorted ports).
Proof.
  unfold sorted. apply Sorted_le_NoDup_lt.
  - apply Sorted_merge_sort. intros x y. lia.
  - rewrite merge_sort_Permutation. apply NoDup_elements.
Qed.

Lemma sorted_elem_of (ports : gset Z) (port : Z) :
  port ∈ sorted ports <-> port ∈ ports.
Proof. unfold sorted. by rewrite merge_sort_Permutation, elem_of_elements. Qed.

(** Whatever the string, a list [parse_ports] returns is strictly
    ascending: a port named by several tokens occurs once. *)
Lemma parse_ports_strictly_sorted (port_string : string) (ports : list Z) :
  parse_ports port_string = Return ports -> StronglySorted Z.lt ports.
Proof.
  unfold parse_ports. destruct (_ || _); [done |].
  destruct (parse_parts _ _) as [set |]; [| done].
  intros [= <-]. apply sorted_strictly.
Qed.

(** C7. "20-80,443,8080" parses to the 63 ports 20..80, 443 and 8080; a
    port named by several tokens is listed once; "0", "65536" and the
    reversed range "80-20" raise [ValueError]. *)
Theorem parse_ports_examples :
  parse_ports "20-80,443,8080" = Return (seqZ 20 61 ++ [443; 8080])
  /\ length (seqZ 20 61 ++ [443; 8080]) = 63%nat
  /\ parse_ports "80,20-80,443,79-81,443" = Return (seqZ 20 62 ++ [443])
  /\ (forall port_string ports,
        parse_ports port_string = Return ports -> NoDup ports)
  /\ parse_ports "0"
     = Raise (Exc ValueError "Некорректный номер порта: 0")
  /\ parse_ports "65536"
     = Raise (Exc ValueError "Некорректный номер порта: 65536")
  /\ parse_ports "80-20"
     = Raise (Exc ValueError "Некорректный диапазон портов: 80-20").
Proof.
  split; [vm_compute; reflexivity |]. split; [reflexivity |].
  split; [vm_compute; reflexivity |]. split.
  - intros port_string ports Hs%parse_ports_strictly_sorted.
    induction Hs as [| x l _ IH Hx]; constructor; [| done].
    rewrite Forall_forall in Hx. intros Hin%Hx. lia.
  - repeat split; vm_compute; reflexivity.
Qed.

(** ** The text report *)

Lemma append_assoc (a b c : string) : (a +:+ b) +:+ c = a +:+ b +:+ c.
Proof.
  induction a as [| x a IH]; [done |].
  change (String x ((a +:+ b) +:+ c) = String x (a +:+ b +:+ c)).
  by rewrite IH.
Qed.

(** The line of a port that is not open, as [process_results] hands it to
    [save_results_txt]: the key "time_ms" is there and holds [None], which
    differs from 'N/A', so the line ends in "(Nonems)". *)
Lemma result_line_without_elapsed (port : Z) (status : string) :
  result_line (result_dict (port, status, None))
  = Return ("Port " +:+ rjust 5 (str_int port)
            +:+ " (" +:+ ljust 15 (get_port_description port) +:+ "): "
            +:+ ljust 8 status +:+ " (Nonems)" +:+ String "010"%char "").
Proof.
  unfold result_line, getitem.
  rewrite result_dict_port, result_dict_status.
  cbn [mbind completion_bind bind format_5d format_s description_of].
  assert (result_dict (port, status, None) !! "time_ms" = Some VNone)
    as -> by done.
  cbn [default]. rewrite decide_True by done. cbn [str].
  by rewrite !append_assoc.
Qed.

(** C9 at the failing input: the report of a closed port 80. *)
Theorem report_line_of_closed_port :
  result_line (result_dict (80, "closed", None))
  = Return ("Port    80 (HTTP           ): closed   (Nonems)"
            +:+ String "010"%char "")
  /\ result_line (result_dict (80, "open", Some 62))
     = Return ("Port    80 (HTTP           ): open     (62ms)"
               +:+ String "010"%char "")
  /\ result_line {[ "port" := VInt 8081; "status" := VStr "closed" ]}
     = Return ("Port  8081 (Port 8081      ): closed  "
               +:+ String "010"%char "").
Proof. repeat split; vm_compute; reflexivity. Qed.

(** ** Checks on concrete inputs *)

Example round_2_5 : round 2.5%float = Return 2.
Proof. vm_compute. reflexivity. Qed.

Example round_3_5 : round (-3.5)%float = Return (-4).
Proof. vm_compute. reflexivity. Qed.

Example round_nan : exists e, round PrimFloat.nan = Raise e.
Proof. eexists. vm_compute. reflexivity. Qed.

Example process_demo :
  process_results (App []) [(443, "closed", None); (80, "open", Some 12)]
  = Return (App [result_dict (80, "open", Some 12);
                 result_dict (443, "closed", None)]).
Proof. vm_compute. reflexivity. Qed.

Example parse_demo : parse_ports " 8080, 20-22 ,21" = Return [20; 21; 22; 8080].
Proof. vm_compute. reflexivity. Qed.

Example parse_trailing_comma :
  parse_ports "80," = Raise (Exc ValueError "Некорректный номер порта: ").
Proof. vm_compute. reflexivity. Qed.

Example parse_blank : parse_ports "  " = Raise (Exc ValueError "Пустая строка портов").
Proof. vm_compute. reflexivity. Qed.

Example scan_port_unreachable :
  scan_port "192.0.2.1" 25 1%float Scenario.unreachable
  = Return (25, "error", None).
Proof. vm_compute. reflexivity. Qed.

Example summary_of_scan :
  create_summary
    (result_dict <$> [(22, "open", Some 62); (80, "closed", None);
                      sentinel])
  = {[ "total" := 3; "open" := 1; "closed" := 1; "timeout" := 0;
       "error" := 1 ]}.
Proof. vm_compute. reflexivity. Qed.

(** * Further properties *)

(** ** The event loop, continued *)

Lemma filter_fmap_Done (P : task -> bool) (rs : list (completion outcome)) :
  (forall r, P (Done r) = false) ->
  filter (fun t => P t = true) (Done <$> rs) = [].
Proof.
  intros HP. induction rs as [| r rs IH]; [done |].
  rewrite fmap_cons, filter_cons_False; [done |]. by rewrite HP.
Qed.

Lemma filter_replicate_Waiting (P : task -> bool) (n : nat) :
  filter (fun t => P t = true) (replicate n Waiting)
  = if P Waiting then replicate n Waiting else [].
Proof.
  induction n as [| n IH]; simpl; [by destruct (P Waiting) |].
  rewrite filter_cons, IH. destruct (P Waiting) eqn:HP.
  - by rewrite decide_True.
  - by rewrite decide_False.
Qed.

Lemma steps_left_initial {CB} ports concurrency (cb0 : CB) s0 :
  initial ports concurrency cb0 = Return s0 ->
  steps_left s0 = (2 * length ports)%nat.
Proof.
  intros [Ht _]%initial_tasks. unfold steps_left. rewrite Ht.
  rewrite !filter_replicate_Waiting. simpl. rewrite length_replicate. lia.
Qed.

Lemma steps_left_gathered {CB} (s : @loop_state CB) :
  is_Some (gathered s) -> steps_left s = 0%nat /\ in_flight s = 0%nat.
Proof.
  intros [rs Hg%gathered_spec]. unfold steps_left, in_flight.
  rewrite Hg, !filter_fmap_Done by done. done.
Qed.

(** X1. For a positive limit the scan always finishes: an execution of
    the loop has at most two steps per port, has exactly that many when
    [gather] returns, and before that some step is always possible. *)
Theorem scan_always_finishes {CB : Type} (ip : string) (ports : list Z)
  (timeout : float) (cb : option callback) (concurrency : Z) (cb0 : CB)
  (s0 s : loop_state) (schedule : list action) :
  0 < concurrency ->
  initial ports concurrency cb0 = Return s0 ->
  run ip ports timeout cb s0 schedule = Some s ->
  (length schedule <= 2 * length ports)%nat /\
  (is_Some (gathered s) -> length schedule = (2 * length ports)%nat) /\
  (gathered s = None ->
   forall w : attempt, exists a s', step ip ports timeout cb s a = Some s').
Proof.
  intros Hc Hinit Hrun.
  pose proof (run_length _ _ _ _ _ _ _ Hrun) as Hlen.
  rewrite (steps_left_initial _ _ _ _ Hinit) in Hlen.
  split; [lia |]. split.
  - intros [H0 _]%steps_left_gathered. lia.
  - intros Hg w.
    destruct (slots_reachable _ _ _ _ _ _ _ _ _ Hinit Hrun) as [_ Hslots].
    eapply no_deadlock; eauto. lia.
Qed.

Lemma scan_always_finishes_witness :
  (length Scenario.interleaved <= 2 * length [22; 80; 443])%nat /\
  (is_Some (gathered
              (LoopState 2 (Done <$> Scenario.gathered_with_fault) 3%nat
                 [ProbeEnter 0; ProbeEnter 1; ProbeExit 1; Progress 1;
                  ProbeEnter 2; ProbeExit 0; Progress 0; ProbeExit 2;
                  Progress 2])) ->
   length Scenario.interleaved = (2 * length [22; 80; 443])%nat) /\
  (gathered
     (LoopState 2 (Done <$> Scenario.gathered_with_fault) 3%nat
        [ProbeEnter 0; ProbeEnter 1; ProbeExit 1; Progress 1;
         ProbeEnter 2; ProbeExit 0; Progress 0; ProbeExit 2;
         Progress 2]) = None ->
   forall w : attempt, exists a s',
     step "192.0.2.1" [22; 80; 443] 1%float (Some Scenario.fails_second)
       (LoopState 2 (Done <$> Scenario.gathered_with_fault) 3%nat
          [ProbeEnter 0; ProbeEnter 1; ProbeExit 1; Progress 1;
           ProbeEnter 2; ProbeExit 0; Progress 0; ProbeExit 2;
           Progress 2]) a = Some s').
Proof.
  eapply (scan_always_finishes "192.0.2.1" [22; 80; 443] 1%float
            (Some Scenario.fails_second) 2 0%nat);
    [lia | vm_compute; reflexivity | vm_compute; reflexivity].
Defined.

Lemma step_without_slot {CB} ip ports timeout cb (n : nat) (st : CB)
  (tr : list event) (a : action) :
  step ip ports timeout cb (LoopState 0 (replicate n Waiting) st tr) a = None.
Proof.
  destruct a as [i | i w]; simpl.
  - by destruct (replicate n Waiting !! i) as [[| |] |].
  - destruct (replicate n Waiting !! i) as [t |] eqn:Ht; [| done].
    apply lookup_replicate in Ht as [-> _]. done.
Qed.

(** X2. With a concurrency limit of 0 and at least one port, [scan_ports]
    never returns: no task can take a slot, so [gather] waits for ever. *)
Theorem zero_concurrency_never_returns {CB : Type} (ip : string)
  (ports : list Z) (timeout : float) (cb : option callback) (cb0 : CB)
  (schedule : list action) :
  ports <> [] ->
  scan_ports ip ports timeout cb 0 cb0 schedule = None.
Proof.
  intros Hports. unfold scan_ports, initial, Semaphore. simpl.
  destruct schedule as [| a schedule]; simpl.
  - destruct ports; done.
  - by rewrite step_without_slot.
Qed.

Lemma zero_concurrency_never_returns_witness :
  scan_ports "192.0.2.1" [22; 80; 443] 1%float (Some Scenario.counting) 0
    0%nat Scenario.interleaved = None.
Proof.
  apply (zero_concurrency_never_returns "192.0.2.1" [22; 80; 443] 1%float
           (Some Scenario.counting) 0%nat Scenario.interleaved).
  discriminate.
Defined.

(** X3. When [gather] returns, every slot of the semaphore is free again
    and no probe is in flight, also when callbacks raised. *)
Theorem slots_released_at_the_end {CB : Type} (ip : string) (ports : list Z)
  (timeout : float) (cb : option callback) (concurrency : Z) (cb0 : CB)
  (s0 s : loop_state) (schedule : list action) :
  initial ports concurrency cb0 = Return s0 ->
  run ip ports timeout cb s0 schedule = Some s ->
  is_Some (gathered s) ->
  Z.of_nat (sem_value s) = concurrency /\ in_flight s = 0%nat.
Proof.
  intros Hinit Hrun [_ H0]%steps_left_gathered.
  destruct (slots_reachable _ _ _ _ _ _ _ _ _ Hinit Hrun)
    as [Hc [_ Hsum _]].
  split; [lia | done].
Qed.

Lemma slots_released_at_the_end_witness :
  exists s : @loop_state nat,
    run "192.0.2.1" [22; 80; 443] 1%float (Some Scenario.fails_second)
      (LoopState 2 [Waiting; Waiting; Waiting] 0%nat [])
      Scenario.interleaved = Some s /\
    Z.of_nat (sem_value s) = 2 /\ in_flight s = 0%nat.
Proof.
  eexists. split; [vm_compute; reflexivity |].
  eapply (slots_released_at_the_end "192.0.2.1" [22; 80; 443] 1%float
            (Some Scenario.fails_second) 2 0%nat _ _ Scenario.interleaved);
    [vm_compute; reflexivity | vm_compute; reflexivity |].
  eexists. vm_compute. reflexivity.
Defined.










(** X5. While the scan runs, the tasks that have called the progress
    callback are exactly the finished ones, each once; hence there are
    never more calls than ports. *)
Theorem progress_tracks_finished_tasks {CB : Type} (ip : string)
  (ports : list Z) (timeout : float) (f : callback) (concurrency : Z)
  (cb0 : CB) (s0 s : loop_state) (schedule : list action) :
  initial ports concurrency cb0 = Return s0 ->
  run ip ports timeout (Some f) s0 schedule = Some s ->
  NoDup (progress_calls (trace s)) /\
  (forall i : nat,
     i ∈ progress_calls (trace s) <-> exists r, tasks s !! i = Some (Done r))
  /\ (length (progress_calls (trace s)) <= length ports)%nat.
Proof.
  intros Hinit Hrun.
  destruct (slots_reachable _ _ _ _ _ _ _ _ _ Hinit Hrun) as [_ [Hlen _ _]].
  destruct (invariants_reachable _ _ _ _ _ _ _ _ _ Hinit Hrun)
    as [[Hnd Hin] _].
  split; [done |]. split; [done |].
  transitivity (length (seq 0 (length ports))); [| by rewrite length_seq].
  apply submseteq_length, NoDup_submseteq; [done |].
  intros i [r Hr%lookup_lt_Some]%Hin. apply elem_of_seq. lia.
Qed.

Lemma progress_tracks_finished_tasks_witness :
  exists s : @loop_state nat,
    run "192.0.2.1" [22; 80; 443] 1%float (Some Scenario.counting)
      (LoopState 2 [Waiting; Waiting; Waiting] 0%nat [])
      [Acquire 0; Acquire 1; Complete 1 Scenario.refused] = Some s /\
    progress_calls (trace s) = [1%nat] /\
    NoDup (progress_calls (trace s)) /\
    (forall i : nat,
       i ∈ progress_calls (trace s)
       <-> exists r, tasks s !! i = Some (Done r))
    /\ (length (progress_calls (trace s)) <= length [22; 80; 443])%nat.
Proof.
  eexists. split; [vm_compute; reflexivity |]. split; [reflexivity |].
  eapply (progress_tracks_finished_tasks "192.0.2.1" [22; 80; 443] 1%float
            Scenario.counting 2 0%nat _ _
            [Acquire 0; Acquire 1; Complete 1 Scenario.refused]);
    vm_compute; reflexivity.
Defined.

Lemma callback_state_step {CB} ip ports timeout (f : @callback CB) cb0
  (s s' : loop_state) a :
  cb_state s
  = Nat.iter (length (progress_calls (trace s))) (fun st => (f st).1) cb0 ->
  step ip ports timeout (Some f) s a = Some s' ->
  cb_state s'
  = Nat.iter (length (progress_calls (trace s'))) (fun st => (f st).1) cb0.
Proof.
  intros Hinv Hstep.
  destruct (step_inv _ _ _ _ _ _ _ Hstep)
    as [(i & v & -> & Ht & Hv & ->)
       | (i & w & port & st & evs & r & -> & Ht & Hp & Hb & ->)]; simpl.
  - by rewrite progress_calls_app, app_nil_r.
  - apply scan_with_semaphore_spec in Hb as (o & _ & -> & -> & _).
    rewrite progress_calls_app, length_app, Nat.add_comm. simpl.
    by rewrite <- Hinv.
Qed.

(** X6. When [gather] returns, the state of the progress callback is its
    initial state after [len(ports)] calls: a callback that counts its
    calls ends at the number of ports. *)
Theorem callback_state_at_the_end {CB : Type} (ip : string) (ports : list Z)
  (timeout : float) (f : callback) (concurrency : Z) (cb0 : CB)
  (s0 s : loop_state) (schedule : list action) :
  initial ports concurrency cb0 = Return s0 ->
  run ip ports timeout (Some f) s0 schedule = Some s ->
  is_Some (gathered s) ->
  cb_state s = Nat.iter (length ports) (fun st => (f st).1) cb0.
Proof.
  intros Hinit Hrun [rs Hg].
  destruct (slots_reachable _ _ _ _ _ _ _ _ _ Hinit Hrun) as [_ [Hlen _ _]].
  destruct (invariants_reachable _ _ _ _ _ _ _ _ _ Hinit Hrun)
    as [[Hnd Hin] _].
  apply gathered_spec in Hg.
  assert (length (progress_calls (trace s)) = length ports) as <-.
  { transitivity (length (seq 0 (length ports))); [| by rewrite length_seq].
    apply Permutation_length.
    apply NoDup_Permutation; [done | apply NoDup_seq |].
    intros i. rewrite Hin, elem_of_seq. split.
    - intros [r Hr%lookup_lt_Some]. lia.
    - intros [_ Hi]. simpl in Hi. rewrite <- Hlen, Hg, length_fmap in Hi.
      apply lookup_lt_is_Some_2 in Hi as [r Hr].
      exists r. by rewrite Hg, list_lookup_fmap, Hr. }
  eapply (run_invariant ip ports timeout (Some f)
            (fun s => cb_state s
                      = Nat.iter (length (progress_calls (trace s)))
                          (fun st => (f st).1) cb0)); [| | exact Hrun].
  - intros. by eapply callback_state_step.
  - unfold initial, Semaphore in Hinit.
    destruct (concurrency <? 0); [done |]. simpl in Hinit.
    by injection Hinit as <-.
Qed.

Lemma callback_state_at_the_end_witness :
  exists s : @loop_state nat,
    run "192.0.2.1" [22; 80; 443] 1%float (Some Scenario.counting)
      (LoopState 2 [Waiting; Waiting; Waiting] 0%nat [])
      Scenario.interleaved = Some s /\
    cb_state s = 3%nat /\
    cb_state s
    = Nat.iter (length [22; 80; 443])
        (fun st => (Scenario.counting st).1) 0%nat.
Proof.
  eexists. split; [vm_compute; reflexivity |]. split; [reflexivity |].
  eapply (callback_state_at_the_end "192.0.2.1" [22; 80; 443] 1%float
            Scenario.counting 2 0%nat _ _ Scenario.interleaved);
    [vm_compute; reflexivity | vm_compute; reflexivity |].
  eexists. vm_compute. reflexivity.
Defined.

Ltac in_statuses :=
  unfold statuses;
  repeat (apply elem_of_cons; first [left; reflexivity | right]).

(** A progress callback that cannot raise, or none at all. *)
Definition never_raises {CB : Type} (cb : option (@callback CB)) : Prop :=
  match cb with
  | Some f => forall st, (f st).2 = Return ()
  | None => True
  end.

(** X7. Without a progress callback, or with one that never raises, no
    task faults: entry [i] of the result is the tuple [scan_port] returned
    for [ports[i]], so the result lists the requested ports in the
    requested order. *)
Theorem no_fault_without_raising_callback {CB : Type} (ip : string)
  (ports : list Z) (timeout : float) (cb : option callback)
  (concurrency : Z) (cb0 : CB) (schedule : list action)
  (results : list outcome) :
  never_raises cb ->
  scan_ports ip ports timeout cb concurrency cb0 schedule
  = Some (Return results) ->
  Forall2 (fun port o => exists w, scan_port ip port timeout w = Return o)
    ports results /\
  outcome_port <$> results = ports.
Proof.
  intros Hcb (s0 & s & rs & Hinit & Hrun & Hg & ->)%scan_ports_inv.
  destruct (slots_reachable _ _ _ _ _ _ _ _ _ Hinit Hrun) as [_ [Hlen _ _]].
  destruct (invariants_reachable _ _ _ _ _ _ _ _ _ Hinit Hrun) as [_ Hres].
  apply gathered_spec in Hg. rewrite Hg, length_fmap in Hlen.
  rewrite filter_exceptions_fmap.
  assert (Forall2 (fun port o =>
                     exists w, scan_port ip port timeout w = Return o)
            ports (substitute <$> rs)) as Hall.
  { apply Forall2_same_length_lookup. split; [by rewrite length_fmap |].
    intros i port o Hp Ho. rewrite list_lookup_fmap in Ho.
    destruct (rs !! i) as [r |] eqn:Hr; [| done]. simplify_eq/=.
    destruct (Hres i r) as (port' & w & o & Hp' & Hw & Hcase).
    { by rewrite Hg, list_lookup_fmap, Hr. }
    simplify_eq. destruct Hcase as [-> | (f & st & e & -> & Hf & _)].
    - by exists w.
    - simpl in Hcb. by rewrite Hcb in Hf. }
  split; [done |].
  apply list_eq. intros i. rewrite list_lookup_fmap.
  destruct (ports !! i) as [port |] eqn:Hp.
  - destruct (Forall2_lookup_l _ _ _ _ _ Hall Hp) as (o & -> & w & Hw).
    destruct (scan_port_returns ip port timeout w) as (? & ? & Hw').
    rewrite Hw in Hw'. by simplify_eq.
  - apply Forall2_length in Hall. apply lookup_ge_None in Hp.
    rewrite (proj2 (lookup_ge_None _ i)); [done | lia].
Qed.

Lemma no_fault_without_raising_callback_witness :
  Forall2 (fun port o =>
             exists w, scan_port "192.0.2.1" port 1%float w = Return o)
    [22; 80; 443]
    [(22, "open", Some 62); (80, "closed", None); (443, "timeout", None)]
  /\ outcome_port <$>
       [(22, "open", Some 62); (80, "closed", None);
        (443, "timeout", None)] = [22; 80; 443].
Proof.
  apply (no_fault_without_raising_callback "192.0.2.1" [22; 80; 443]
           1%float (@None (@callback nat)) 2 0%nat Scenario.interleaved);
    [exact I | vm_compute; reflexivity].
Defined.

(** X8. Every entry of the list [scan_ports] returns, the sentinel
    included, has one of the four statuses, and an elapsed time exactly
    when its status is "open". *)
Theorem scan_ports_entries_well_formed {CB : Type} (ip : string)
  (ports : list Z) (timeout : float) (cb : option callback)
  (concurrency : Z) (cb0 : CB) (schedule : list action)
  (results : list outcome) :
  scan_ports ip ports timeout cb concurrency cb0 schedule
  = Some (Return results) ->
  Forall (fun o => outcome_status o ∈ statuses /\
                   (outcome_status o = "open" <-> is_Some (outcome_elapsed o)))
    results.
Proof.
  intros (s0 & s & rs & Hinit & Hrun & Hg & ->)%scan_ports_inv.
  destruct (invariants_reachable _ _ _ _ _ _ _ _ _ Hinit Hrun) as [_ Hres].
  apply gathered_spec in Hg. rewrite filter_exceptions_fmap.
  apply Forall_lookup. intros i o Ho. rewrite list_lookup_fmap in Ho.
  destruct (rs !! i) as [r |] eqn:Hr; [| done]. simplify_eq/=.
  destruct (Hres i r) as (port & w & o & _ & Hw & Hcase).
  { by rewrite Hg, list_lookup_fmap, Hr. }
  assert (forall st el, st ∈ statuses -> (st = "open" <-> is_Some el) ->
            outcome_status (port, st, el) ∈ statuses /\
            (outcome_status (port, st, el) = "open"
             <-> is_Some (outcome_elapsed (port, st, el)))) as Hok by done.
  destruct Hcase as [-> | (f & st & e & _ & _ & ->)]; simpl.
  - destruct (scan_port_cases ip port timeout w)
      as [[ms H] | [H | [H | H]]]; rewrite Hw in H; simplify_eq;
      (split; [in_statuses |]);
      unfold outcome_status, outcome_elapsed; simpl;
      split; (done || by intros [? [=]] || eauto).
  - unfold sentinel, outcome_status, outcome_elapsed. simpl.
    split; [in_statuses |].
    split; (done || by intros [? [=]]).
Qed.

Lemma scan_ports_entries_well_formed_witness :
  Forall (fun o => outcome_status o ∈ statuses /\
                   (outcome_status o = "open" <-> is_Some (outcome_elapsed o)))
    [sentinel; (80, "closed", None); (443, "timeout", None)].
Proof.
  apply (scan_ports_entries_well_formed "192.0.2.1" [22; 80; 443] 1%float
           (Some Scenario.fails_second) 2 0%nat Scenario.interleaved).
  vm_compute. reflexivity.
Defined.

(** X9. For an empty list of ports [scan_ports] returns the empty list
    at once: no slot is taken and no probe is started. *)
Theorem scan_of_no_ports {CB : Type} (ip : string) (timeout : float)
  (cb : option callback) (concurrency : Z) (cb0 : CB)
  (schedule : list action) :
  0 <= concurrency ->
  scan_ports ip [] timeout cb concurrency cb0 schedule
  = match schedule with
    | [] => Some (Return [])
    | _ :: _ => None
    end.
Proof.
  intros Hc. unfold scan_ports, initial, Semaphore.
  destruct (Z.ltb_spec concurrency 0); [lia |]. simpl.
  destruct schedule as [| [i | i w] schedule]; simpl; [done | |];
    by destruct i.
Qed.

Lemma scan_of_no_ports_witness :
  scan_ports "192.0.2.1" [] 1%float (Some Scenario.counting) 500 0%nat []
  = Some (Return []).
Proof.
  apply (scan_of_no_ports "192.0.2.1" 1%float (Some Scenario.counting) 500
           0%nat []).
  lia.
Defined.

(** ** [parse_ports], continued *)

(** A token that is accepted adds one inclusive range of valid ports (a
    single port is the range from itself to itself). *)
Lemma parse_part_Return (ports ports' : gset Z) (part : string) :
  parse_part ports part = Return ports' ->
  exists start end_ : Z,
    1 <= start /\ start <= end_ /\ end_ <= 65535 /\
    forall x, x ∈ ports' <-> x ∈ ports \/ start <= x <= end_.
Proof.
  unfold parse_part, try_except.
  destruct (contains_char "-" (strip part)).
  - destruct (unpack_two_ints _) as [[start end_] | e]; simpl.
    + destruct (Z.ltb_spec start 1), (Z.gtb_spec end_ 65535),
        (Z.gtb_spec start end_); simpl;
        repeat match goal with
               | |- context [if ?b then _ else _] => destruct b
               end; try discriminate.
      intros [= <-]. exists start, end_. repeat (split; [lia |]).
      intros x. rewrite elem_of_union, elem_of_list_to_set, elem_of_seqZ.
      split; (intros [? | ?]; [by left | right; lia]).
    + repeat match goal with
             | |- context [if ?b then _ else _] => destruct b
             end; discriminate.
  - destruct (int (strip part)) as [port | e]; simpl.
    + destruct (Z.ltb_spec port 1), (Z.gtb_spec port 65535); simpl;
        repeat match goal with
               | |- context [if ?b then _ else _] => destruct b
               end; try discriminate.
      intros [= <-]. exists port, port. repeat (split; [lia |]).
      intros x. rewrite elem_of_union, elem_of_singleton.
      split; (intros [? | ?]; [by left | right; lia]).
    + repeat match goal with
             | |- context [if ?b then _ else _] => destruct b
             end; discriminate.
Qed.

Lemma parse_parts_Return (parts : list string) :
  forall ports ports' : gset Z,
    parse_parts ports parts = Return ports' ->
    (forall x, x ∈ ports' -> x ∈ ports \/ 1 <= x <= 65535) /\
    (forall x, x ∈ ports -> x ∈ ports') /\
    (parts <> [] -> exists x, x ∈ ports').
Proof.
  induction parts as [| part parts IH]; intros ports ports' H; simpl in H.
  - injection H as <-. repeat split; auto. done.
  - destruct (parse_part ports part) as [ports1 |] eqn:H1; [| done].
    simpl in H. apply IH in H as (Hin & Hsub & _).
    apply parse_part_Return in H1 as (start & end_ & ? & ? & ? & H1).
    repeat split.
    + intros x [Hx | Hx]%Hin; [| by right].
      apply H1 in Hx as [? | ?]; [by left | right; lia].
    + intros x Hx. apply Hsub, H1. by left.
    + intros _. exists start. apply Hsub, H1. right. lia.
Qed.

Lemma split_not_nil (sep : ascii) (s : string) : split sep s <> [].
Proof.
  destruct s as [| c s]; simpl; [done |].
  destruct (Ascii.eqb c sep); [done |]. by destruct (split sep s).
Qed.

(** X10. Whatever the string, a list [parse_ports] returns is not empty
    and holds only ports between 1 and 65535. *)
Theorem parse_ports_valid_ports (port_string : string) (ports : list Z) :
  parse_ports port_string = Return ports ->
  ports <> [] /\ Forall (fun port => 1 <= port <= 65535) ports.
Proof.
  unfold parse_ports. destruct (_ || _); [done |].
  destruct (parse_parts _ _) as [set |] eqn:Hparts; [| done].
  intros [= <-].
  apply parse_parts_Return in Hparts as (Hin & _ & Hne).
  destruct (Hne (split_not_nil _ _)) as [x Hx]. split.
  - apply sorted_elem_of in Hx. intros Hnil. rewrite Hnil in Hx.
    by apply elem_of_nil in Hx.
  - apply Forall_forall. intros x' Hx'%sorted_elem_of.
    destruct (Hin x' Hx') as [Hempty | ?]; [| done].
    by apply elem_of_empty in Hempty.
Qed.

Lemma parse_ports_valid_ports_witness :
  [20; 21; 22; 8080] <> [] /\
  Forall (fun port => 1 <= port <= 65535) [20; 21; 22; 8080].
Proof.
  apply (parse_ports_valid_ports " 8080, 20-22 ,21" [20; 21; 22; 8080]).
  vm_compute. reflexivity.
Defined.

Lemma int_Raise (s : string) (e : exn) :
  int s = Raise e -> exc_cls e = ValueError.
Proof.
  unfold int.
  match goal with |- context [match ?p with Some _ => _ | None => _ end] =>
    destruct p end; [done |]. by intros [= <-].
Qed.

Lemma unpack_two_ints_Raise (pieces : list string) (e : exn) :
  unpack_two_ints pieces = Raise e -> exc_cls e = ValueError.
Proof.
  destruct pieces as [| a [| b rest]]; simpl.
  - by intros [= <-].
  - destruct (int a) eqn:Ha; simpl; [by intros [= <-] |].
    intros [= <-]. by eapply int_Raise.
  - destruct (int a) eqn:Ha; simpl;
      [| intros [= <-]; by eapply int_Raise].
    destruct (int b) eqn:Hb; simpl;
      [| intros [= <-]; by eapply int_Raise].
    destruct rest as [| c rest]; [done |].
    destruct (int c) eqn:Hc; simpl; [by intros [= <-] |].
    intros [= <-]. by eapply int_Raise.
Qed.

Lemma parse_part_Raise (ports : gset Z) (part : string) (e : exn) :
  parse_part ports part = Raise e -> exc_cls e = ValueError.
Proof.
  unfold parse_part, try_except.
  destruct (contains_char "-" (strip part)).
  - destruct (unpack_two_ints _) as [[start end_] | e'] eqn:Hu; simpl.
    + destruct ((start <? 1) || (end_ >? 65535) || (start >? end_));
        [| done].
      simpl. destruct (contains _ _); by intros [= <-].
    + apply unpack_two_ints_Raise in Hu. unfold isinstance. rewrite Hu.
      simpl. destruct (contains _ _); intros [= <-]; done.
  - destruct (int (strip part)) as [port | e'] eqn:Hi; simpl.
    + destruct ((port <? 1) || (port >? 65535)); [| done].
      simpl. by intros [= <-].
    + apply int_Raise in Hi. unfold isinstance. rewrite Hi. simpl.
      by intros [= <-].
Qed.

(** X11. Whatever the string, the only exception [parse_ports] raises is
    a [ValueError]. *)
Theorem parse_ports_raises_only_ValueError (port_string : string) (e : exn) :
  parse_ports port_string = Raise e -> exc_cls e = ValueError.
Proof.
  unfold parse_ports. destruct (_ || _); [by intros [= <-] |].
  destruct (parse_parts _ _) as [set | e'] eqn:Hparts; [done |].
  simpl. intros [= <-]. revert Hparts. generalize (∅ : gset Z).
  induction (split "," (strip port_string)) as [| part parts IH];
    intros ports; simpl; [done |].
  destruct (parse_part ports part) as [ports1 | e1] eqn:H1; simpl.
  - apply IH.
  - intros [= <-]. by eapply parse_part_Raise.
Qed.

Lemma parse_ports_raises_only_ValueError_witness :
  exc_cls (Exc ValueError "Некорректный формат диапазона: 1-2-x")
  = ValueError.
Proof.
  apply (parse_ports_raises_only_ValueError "22, 1-2-x").
  vm_compute. reflexivity.
Defined.

(** *** Strings of digits *)

Fixpoint string_forallb (P : ascii -> bool) (s : string) : bool :=
  match s with
  | EmptyString => true
  | String c s' => P c && string_forallb P s'
  end.

Definition is_digit (c : ascii) : bool := bool_decide (is_Some (digit_of c)).

Lemma string_forallb_app P (a b : string) :
  string_forallb P (a +:+ b) = string_forallb P a && string_forallb P b.
Proof.
  induction a as [| c a IH]; [done |].
  change (P c && string_forallb P (a +:+ b)
          = P c && string_forallb P a && string_forallb P b).
  rewrite IH. by destruct (P c).
Qed.

Lemma string_forallb_impl (P Q : ascii -> bool) (s : string) :
  (forall c, P c = true -> Q c = true) ->
  string_forallb P s = true -> string_forallb Q s = true.
Proof.
  intros HPQ. induction s as [| c s IH]; simpl; [done |].
  intros [Hc Hs]%andb_prop. by rewrite (HPQ c Hc), IH.
Qed.

Lemma is_digit_cases (c : ascii) :
  is_digit c = true ->
  c ∈ ["0"; "1"; "2"; "3"; "4"; "5"; "6"; "7"; "8"; "9"]%char.
Proof.
  destruct c as [[] [] [] [] [] [] [] []]; try discriminate; intros _;
    repeat (apply elem_of_cons; first [left; reflexivity | right]).
Qed.

Lemma is_digit_not_space (c : ascii) :
  is_digit c = true -> negb (is_space c) = true.
Proof.
  intros H%is_digit_cases.
  repeat (apply elem_of_cons in H as [-> | H]; [done |]).
  by apply elem_of_nil in H.
Qed.

Lemma strip_no_space (s : string) :
  string_forallb (fun c => negb (is_space c)) s = true -> strip s = s.
Proof.
  intros Hs. unfold strip.
  assert (lstrip s = s) as ->.
  { destruct s as [| c s]; [done |]. simpl in *.
    by destruct (is_space c). }
  induction s as [| c s IH]; [done |]. simpl in *.
  apply andb_prop in Hs as [Hc Hs]. rewrite (IH Hs).
  destruct s; [by destruct (is_space c) | done].
Qed.

Lemma contains_char_forallb (P : ascii -> bool) (c : ascii) (s : string) :
  P c = false -> string_forallb P s = true -> contains_char c s = false.
Proof.
  intros Hc. induction s as [| d s IH]; simpl; [done |].
  intros [Hd Hs]%andb_prop. rewrite (IH Hs), orb_false_r.
  destruct (Ascii.eqb_spec c d) as [-> |]; [congruence | done].
Qed.

Lemma split_no_sep (sep : ascii) (s : string) :
  contains_char sep s = false -> split sep s = [s].
Proof.
  induction s as [| c s IH]; simpl; [done |].
  intros [Hc Hs]%orb_false_elim. rewrite (IH Hs).
  rewrite Ascii.eqb_sym in Hc. by rewrite Hc.
Qed.

Lemma split_app_sep (sep : ascii) (a b : string) :
  contains_char sep a = false ->
  split sep (a +:+ String sep b) = a :: split sep b.
Proof.
  induction a as [| c a IH]; simpl.
  - by rewrite Ascii.eqb_refl.
  - intros [Hc Ha]%orb_false_elim. rewrite (IH Ha).
    rewrite Ascii.eqb_sym in Hc. by rewrite Hc.
Qed.

(** *** [str(n)] and [int(s)] *)

Lemma pretty_N_char_digit (d : N) :
  (d < 10)%N ->
  is_digit (pretty_N_char d) = true /\
  digit_of (pretty_N_char d) = Some (Z.of_N d) /\
  Ascii.eqb (pretty_N_char d) "_" = false.
Proof.
  intros Hd.
  assert (d = 0 \/ d = 1 \/ d = 2 \/ d = 3 \/ d = 4 \/ d = 5 \/ d = 6
          \/ d = 7 \/ d = 8 \/ d = 9)%N as Hcases by lia.
  repeat (destruct Hcases as [-> | Hcases]; [done |]). by subst.
Qed.

(** The digits [pretty_N_go] puts before its accumulator. *)
Lemma pretty_N_go_digits (x : N) :
  forall s, exists ds,
    pretty_N_go x s = ds +:+ s /\ string_forallb is_digit ds = true /\
    ((0 < x)%N -> ds <> "").
Proof.
  induction (N.lt_wf_0 x) as [x _ IH]; intros s.
  destruct (decide (x = 0%N)) as [-> | Hx].
  - exists "". rewrite pretty_N_go_0. split; [done | split; [done | lia]].
  - rewrite pretty_N_go_step by lia.
    destruct (IH (x `div` 10)%N) with
      (s := String (pretty_N_char (x `mod` 10)) s) as (ds & -> & Hds & _).
    { apply N.div_lt; lia. }
    exists (ds +:+ String (pretty_N_char (x `mod` 10)) "").
    rewrite append_assoc, string_forallb_app, Hds. simpl.
    destruct (pretty_N_char_digit (x `mod` 10)) as (-> & _).
    { apply N.mod_lt. lia. }
    split; [done | split; [done |]]. intros _. by destruct ds.
Qed.

Lemma int_digits_pretty_N_go (x : N) :
  (0 < x)%N ->
  forall s b,
    int_digits (pretty_N_go x s) 0 b = int_digits s (Z.of_N x) true.
Proof.
  induction (N.lt_wf_0 x) as [x _ IH]; intros Hx s b.
  rewrite pretty_N_go_step by done.
  destruct (pretty_N_char_digit (x `mod` 10)) as (_ & Hd & Hu).
  { apply N.mod_lt. lia. }
  assert (Z.of_N x = 10 * Z.of_N (x `div` 10) + Z.of_N (x `mod` 10)) as Hx10.
  { pose proof (N.div_mod x 10 ltac:(done)) as Hdm.
    rewrite Hdm at 1. by rewrite N2Z.inj_add, N2Z.inj_mul. }
  destruct (decide (x `div` 10 = 0)%N) as [H0 | H0].
  - rewrite H0, pretty_N_go_0. simpl. rewrite Hu, Hd.
    rewrite H0 in Hx10. simpl in Hx10. by rewrite Hx10.
  - rewrite IH; [| apply N.div_lt; done | by apply N.neq_0_lt_0].
    simpl. rewrite Hu, Hd. by rewrite Hx10.
Qed.

Lemma str_int_positive (n : Z) :
  0 < n ->
  string_forallb is_digit (str_int n) = true /\ str_int n <> "" /\
  int_digits (str_int n) 0 false = Some n.
Proof.
  destruct n as [| p |]; try lia. intros _.
  unfold str_int, pretty, pretty_Z, pretty, pretty_positive, pretty,
    pretty_N.
  rewrite decide_False by done.
  destruct (pretty_N_go_digits (N.pos p) "") as (ds & Hds & Hall & Hne).
  assert (ds +:+ "" = ds) as Hnil.
  { clear. induction ds as [| c ds IH]; [done |].
    change (String c (ds +:+ "") = String c ds). by rewrite IH. }
  rewrite Hnil in Hds. split; [by rewrite Hds |].
  split; [rewrite Hds; apply Hne; lia |].
  by rewrite int_digits_pretty_N_go.
Qed.

(** [int] of a string of digits. *)
Lemma int_of_digits (s : string) (n : Z) :
  string_forallb is_digit s = true ->
  int_digits s 0 false = Some n ->
  int s = Return n.
Proof.
  intros Hs Hn. unfold int.
  rewrite strip_no_space
    by (eapply string_forallb_impl; [apply is_digit_not_space | done]).
  destruct s as [| c s]; [done |].
  simpl in Hs. apply andb_prop in Hs as [Hc%is_digit_cases _].
  repeat (apply elem_of_cons in Hc as [-> | Hc]; [by rewrite Hn |]).
  by apply elem_of_nil in Hc.
Qed.

(** Reading back what [str] wrote. *)
Lemma int_str_int (n : Z) : 0 < n -> int (str_int n) = Return n.
Proof.
  intros (Hall & _ & Hn)%str_int_positive. by apply int_of_digits.
Qed.

(** *** Parsing what [str] and [join] wrote *)

Lemma token_of_port (port : Z) :
  0 < port ->
  string_forallb is_digit (str_int port) = true /\
  strip (str_int port) = str_int port /\
  contains_char "-" (str_int port) = false /\
  contains_char "," (str_int port) = false /\
  int (str_int port) = Return port.
Proof.
  intros Hp. destruct (str_int_positive port Hp) as (Hall & _ & _).
  split; [done |]. split.
  { apply strip_no_space.
    eapply string_forallb_impl; [apply is_digit_not_space | done]. }
  split; [by apply (contains_char_forallb is_digit) |].
  split; [by apply (contains_char_forallb is_digit) | by apply int_str_int].
Qed.

Lemma parse_part_port (ports : gset Z) (port : Z) :
  1 <= port <= 65535 ->
  parse_part ports (str_int port) = Return (ports ∪ {[ port ]}).
Proof.
  intros Hp. destruct (token_of_port port) as (_ & Hs & Hd & _ & Hi); [lia |].
  unfold parse_part. rewrite Hs, Hd, Hi. simpl.
  destruct (Z.ltb_spec port 1); [lia |].
  destruct (Z.gtb_spec port 65535); [lia |]. done.
Qed.

Lemma parse_parts_ports (l : list Z) :
  Forall (fun port => 1 <= port <= 65535) l ->
  forall ports : gset Z,
    parse_parts ports (str_int <$> l) = Return (ports ∪ list_to_set l).
Proof.
  induction 1 as [| port l Hp _ IH]; intros ports; simpl.
  - by rewrite (right_id_L ∅ (∪)).
  - rewrite parse_part_port by done. simpl. rewrite IH.
    by rewrite (assoc_L (∪)).
Qed.

Lemma join_tokens (l : list Z) :
  Forall (fun port => 0 < port) l -> l <> [] ->
  string_forallb (fun c => negb (is_space c)) (join "," (str_int <$> l))
  = true /\
  join "," (str_int <$> l) <> "" /\
  split "," (join "," (str_int <$> l)) = str_int <$> l.
Proof.
  induction 1 as [| port l Hp Hl IH]; [done |]. intros _.
  destruct (token_of_port port Hp) as (Hall & _ & _ & Hc & _).
  destruct (str_int_positive port Hp) as (_ & Hne & _).
  assert (string_forallb (fun c => negb (is_space c)) (str_int port) = true)
    as Hns by (eapply string_forallb_impl; [apply is_digit_not_space | done]).
  destruct l as [| port' l].
  - simpl. split; [done |]. split; [done |]. by apply split_no_sep.
  - destruct IH as (IH1 & IH2 & IH3); [done |].
    change (join "," (str_int <$> port :: port' :: l))
      with (str_int port +:+ String "," (join "," (str_int <$> port' :: l))).
    split; [| split].
    + rewrite string_forallb_app, Hns. simpl. exact IH1.
    + by destruct (str_int port).
    + by rewrite split_app_sep, IH3.
Qed.

Lemma sorted_of_sorted (l : list Z) :
  StronglySorted Z.lt l -> sorted (list_to_set l) = l.
Proof.
  intros Hl. unfold sorted.
  assert (NoDup l) as Hnd.
  { induction Hl as [| x l _ IH Hx]; [constructor |].
    constructor; [| done].
    rewrite Forall_forall in Hx. intros Hin%Hx. lia. }
  eapply (Sorted_unique Z.le).
  - apply Sorted_merge_sort. intros x y. lia.
  - apply StronglySorted_Sorted. clear Hnd.
    induction Hl as [| x l _ IH Hx]; [constructor |].
    constructor; [done |].
    eapply Forall_impl; [done |]. simpl. lia.
  - by rewrite merge_sort_Permutation, elements_list_to_set.
Qed.

(** X12. Writing ports with [str], joining them with commas and parsing
    the text gives the ports back: as a strictly ascending list of the
    same ports in general, and as the very same list when it was strictly
    ascending. *)
Theorem parse_ports_of_joined_ports (ports : list Z) :
  ports <> [] ->
  Forall (fun port => 1 <= port <= 65535) ports ->
  exists parsed,
    parse_ports (join "," (str_int <$> ports)) = Return parsed /\
    StronglySorted Z.lt parsed /\
    (forall port, port ∈ parsed <-> port ∈ ports) /\
    (StronglySorted Z.lt ports -> parsed = ports).
Proof.
  intros Hne Hall. exists (sorted (list_to_set ports)).
  destruct (join_tokens ports) as (Hns & Hnonempty & Hsplit); [| done |].
  { eapply Forall_impl; [done |]. simpl. lia. }
  split.
  - unfold parse_ports. rewrite (strip_no_space _ Hns), Hsplit.
    assert (String.eqb (join "," (str_int <$> ports)) "" = false) as ->
      by by apply String.eqb_neq.
    simpl. rewrite parse_parts_ports by done. simpl.
    by rewrite (left_id_L ∅ (∪)).
  - split; [apply sorted_strictly |]. split.
    + intros port. by rewrite sorted_elem_of, elem_of_list_to_set.
    + apply sorted_of_sorted.
Qed.

Lemma parse_ports_of_joined_ports_witness :
  exists parsed,
    parse_ports set_common_ports = Return parsed /\
    StronglySorted Z.lt parsed /\
    (forall port, port ∈ parsed <-> port ∈ get_common_ports) /\
    (StronglySorted Z.lt get_common_ports -> parsed = get_common_ports).
Proof.
  apply (parse_ports_of_joined_ports get_common_ports); [discriminate |].
  unfold get_common_ports. repeat (constructor; [lia |]). constructor.
Defined.

(** *** A range token *)

Lemma seqZ_strictly_sorted (m n : Z) : StronglySorted Z.lt (seqZ m n).
Proof.
  assert (forall (k : nat) m, StronglySorted Z.lt (seqZ m (Z.of_nat k)))
    as Hnat.
  { induction k as [| k IH]; intros m'; [constructor |].
    rewrite seqZ_cons by lia. constructor.
    - replace (Z.pred (Z.of_nat (S k))) with (Z.of_nat k) by lia. apply IH.
    - apply Forall_forall. intros x Hx%elem_of_seqZ. lia. }
  destruct (Z.le_gt_cases n 0) as [Hn | Hn].
  - unfold seqZ. replace (Z.to_nat n) with 0%nat by lia. constructor.
  - rewrite <- (Z2Nat.id n) by lia. apply Hnat.
Qed.

Lemma contains_char_app (c : ascii) (a b : string) :
  contains_char c (a +:+ b) = contains_char c a || contains_char c b.
Proof.
  induction a as [| d a IH]; [done |].
  change (Ascii.eqb c d || contains_char c (a +:+ b)
          = Ascii.eqb c d || contains_char c a || contains_char c b).
  rewrite IH. by destruct (Ascii.eqb c d).
Qed.

(** The text [f"{start}-{end}"] of a range of positive bounds: what
    [parse_ports] makes of it up to the test of the bounds. *)
Lemma range_token (start end_ : Z) :
  0 < start -> 0 < end_ ->
  let token := str_int start +:+ String "-" (str_int end_) in
  String.eqb token "" = false /\ strip token = token /\
  split "," token = [token] /\ contains_char "-" token = true /\
  unpack_two_ints (split "-" token) = Return (start, end_).
Proof.
  intros Hs He token.
  destruct (token_of_port start Hs) as (Hds & _ & Hdash & Hcomma & Hint).
  destruct (token_of_port end_ He) as (Hde & _ & Hdash' & Hcomma' & Hint').
  destruct (str_int_positive start Hs) as (_ & Hne & _).
  split; [apply String.eqb_neq; unfold token; by destruct (str_int start) |].
  split.
  { apply strip_no_space. unfold token.
    rewrite string_forallb_app. simpl.
    by rewrite !(string_forallb_impl is_digit _ _ is_digit_not_space). }
  split.
  { apply split_no_sep. unfold token. rewrite contains_char_app. simpl.
    by rewrite Hcomma, Hcomma'. }
  split.
  { unfold token. rewrite contains_char_app. simpl.
    by rewrite orb_true_r. }
  unfold token. rewrite split_app_sep, split_no_sep by done.
  simpl. by rewrite Hint, Hint'.
Qed.

(** X13. The text of a valid range, [start-end] with
    [1 <= start <= end <= 65535], parses to the ports from [start] to
    [end], both included, in ascending order. *)
Theorem parse_ports_of_range (start end_ : Z) :
  1 <= start -> start <= end_ -> end_ <= 65535 ->
  parse_ports (str_int start +:+ String "-" (str_int end_))
  = Return (seqZ start (end_ + 1 - start)).
Proof.
  intros H1 H2 H3.
  destruct (range_token start end_) as (Hne & Hstrip & Hsplit & Hd & Hu);
    [lia | lia |].
  unfold parse_ports. rewrite Hne, Hstrip, Hne, Hsplit. simpl.
  unfold parse_part. rewrite Hstrip, Hd, Hu. simpl.
  destruct (Z.ltb_spec start 1); [lia |].
  destruct (Z.gtb_spec end_ 65535); [lia |].
  destruct (Z.gtb_spec start end_); [lia |]. simpl.
  rewrite (left_id_L ∅ (∪)). f_equal.
  apply sorted_of_sorted, seqZ_strictly_sorted.
Qed.

Lemma parse_ports_of_range_witness :
  parse_ports set_all_ports = Return (seqZ 1 (65535 + 1 - 1)).
Proof.
  apply (parse_ports_of_range 1 65535); lia.
Defined.

(** X14. The text of a range of positive bounds that are out of order, or
    whose upper bound exceeds 65535, is rejected with a [ValueError]. *)
Theorem parse_ports_of_bad_range (start end_ : Z) :
  0 < start -> 0 < end_ -> end_ < start \/ 65535 < end_ ->
  exists msg,
    parse_ports (str_int start +:+ String "-" (str_int end_))
    = Raise (Exc ValueError msg).
Proof.
  intros H1 H2 Hbad.
  destruct (range_token start end_) as (Hne & Hstrip & Hsplit & Hd & Hu);
    [lia | lia |].
  unfold parse_ports. rewrite Hne, Hstrip, Hne, Hsplit. simpl.
  unfold parse_part. rewrite Hstrip, Hd, Hu. simpl.
  assert ((start <? 1) || (end_ >? 65535) || (start >? end_) = true) as ->.
  { destruct (Z.ltb_spec start 1), (Z.gtb_spec end_ 65535),
      (Z.gtb_spec start end_); simpl; lia. }
  simpl. destruct (contains _ _); simpl; eauto.
Qed.

Lemma parse_ports_of_bad_range_witness :
  exists msg, parse_ports "80-20" = Raise (Exc ValueError msg).
Proof.
  apply (parse_ports_of_bad_range 80 20); lia.
Defined.

(** X15. A port string that is empty or holds only whitespace is rejected
    with the [ValueError] of the empty string, before any token is read. *)
Theorem parse_ports_of_blank (port_string : string) :
  string_forallb is_space port_string = true ->
  parse_ports port_string = Raise (Exc ValueError "Пустая строка портов").
Proof.
  intros Hblank. unfold parse_ports.
  assert (strip port_string = "") as ->; [| by rewrite orb_true_r].
  unfold strip.
  assert (lstrip port_string = "") as ->; [| done].
  induction port_string as [| c s IH]; [done |]. simpl in *.
  apply andb_prop in Hblank as [-> Hs]. by apply IH.
Qed.

Lemma parse_ports_of_blank_witness :
  parse_ports (String " " (String "009" (String "010" "")))
  = Raise (Exc ValueError "Пустая строка портов").
Proof.
  apply (parse_ports_of_blank (String " " (String "009" (String "010" "")))).
  reflexivity.
Defined.

(** ** [create_summary], continued *)

Lemma create_summary_at (results : list (gmap string value)) (key : string) :
  create_summary results !! key
  = (fun n => n + Z.of_nat (count key results))
      <$> (({[ "total" := Z.of_nat (length results); "open" := 0;
                "closed" := 0; "timeout" := 0; "error" := 0 ]}
            : gmap string Z) !! key).
Proof.
  unfold create_summary, create_summary_frame. cbn [results_arg].
  exact (proj1 (foldl_count_status results _ key)).
Qed.

(** X16. The summary does not depend on the order of the results: it is
    the same before and after the sort of [process_results]. *)
Theorem create_summary_order_independent
  (results results' : list (gmap string value)) :
  results ≡ₚ results' ->
  create_summary results = create_summary results'.
Proof.
  intros Hperm. apply map_eq. intros key. rewrite !create_summary_at.
  assert (count key results = count key results') as ->
    by (unfold count; by rewrite Hperm).
  assert (length results = length results') as -> by (by rewrite Hperm).
  done.
Qed.

Lemma create_summary_order_independent_witness :
  create_summary
    (result_dict <$> [(443, "closed", None); (22, "open", Some 62)])
  = create_summary
      (result_dict <$> [(22, "open", Some 62); (443, "closed", None)]).
Proof.
  apply create_summary_order_independent. simpl. apply Permutation_swap.
Defined.

(** X17. The entry "total" is the number of results plus the number of
    results whose status is the string "total": such a result is counted
    twice. *)
Theorem total_counts_status_total (results : list (gmap string value)) :
  create_summary results !! "total"
  = Some (Z.of_nat (length results) + Z.of_nat (count "total" results))
  /\ create_summary ({[ "status" := VStr "total" ]} :: results) !! "total"
     = Some (Z.of_nat (length results) + Z.of_nat (count "total" results)
             + 2).
Proof.
  rewrite !create_summary_total. split; [done |].
  rewrite count_cons.
  assert (status_of {[ "status" := VStr "total" ]} = VStr "total") as ->
    by done.
  rewrite decide_True by done. f_equal. simpl length. lia.
Qed.

(** X18. Whatever the results, the summary has exactly the five keys
    "total", "open", "closed", "timeout" and "error". *)
Theorem create_summary_keys (results : list (gmap string value)) :
  dom (create_summary results)
  = ({[ "total"; "open"; "closed"; "timeout"; "error" ]} : gset string).
Proof.
  apply set_eq. intros key. rewrite elem_of_dom, create_summary_at.
  rewrite fmap_is_Some, <- elem_of_dom.
  rewrite !dom_insert_L, dom_singleton_L. set_solver.
Qed.

(** X19. Summaries add up: under each of the four statuses, the count of
    two lists of results put together is the sum of their counts. *)
Theorem create_summary_app (results results' : list (gmap string value))
  (name : string) :
  name ∈ statuses ->
  exists n n' : Z,
    create_summary results !! name = Some n /\
    create_summary results' !! name = Some n' /\
    create_summary (results ++ results') !! name = Some (n + n').
Proof.
  intros Hname.
  exists (Z.of_nat (count name results)), (Z.of_nat (count name results')).
  rewrite !create_summary_lookup by done. repeat split.
  unfold count. rewrite filter_app, length_app. f_equal. lia.
Qed.

Lemma create_summary_app_witness :
  exists n n' : Z,
    create_summary (result_dict <$> [(22, "open", Some 62)]) !! "open"
    = Some n /\
    create_summary
      (result_dict <$> [(80, "open", Some 3); (443, "closed", None)])
      !! "open" = Some n' /\
    create_summary
      ((result_dict <$> [(22, "open", Some 62)])
       ++ (result_dict <$> [(80, "open", Some 3); (443, "closed", None)]))
      !! "open" = Some (n + n').
Proof.
  apply create_summary_app. in_statuses.
Defined.

(** ** The text report, continued *)

Lemma length_append (a b : string) :
  String.length (a +:+ b) = (String.length a + String.length b)%nat.
Proof.
  induction a as [| c a IH]; [done |].
  change (S (String.length (a +:+ b))
          = S (String.length a + String.length b)).
  by rewrite IH.
Qed.

Lemma length_spaces (n : nat) : String.length (spaces n) = n.
Proof. unfold spaces. induction n as [| n IH]; simpl; [done | by rewrite IH]. Qed.

Lemma length_ljust (width : nat) (s : string) :
  (String.length s <= width)%nat -> String.length (ljust width s) = width.
Proof. intros. unfold ljust. rewrite length_append, length_spaces. lia. Qed.

Lemma length_rjust (width : nat) (s : string) :
  (String.length s <= width)%nat -> String.length (rjust width s) = width.
Proof. intros. unfold rjust. rewrite length_append, length_spaces. lia. Qed.

(** A number below [10 ^ k] is written with at most [k] digits. *)
Lemma length_pretty_N_go (k : nat) :
  forall (x : N) (s : string),
    (x < 10 ^ N.of_nat k)%N ->
    (String.length (pretty_N_go x s) <= k + String.length s)%nat.
Proof.
  induction k as [| k IH]; intros x s Hx.
  - assert (x = 0%N) as -> by (simpl in Hx; lia).
    rewrite pretty_N_go_0. lia.
  - destruct (decide (x = 0%N)) as [-> | Hx0].
    { rewrite pretty_N_go_0. lia. }
    rewrite pretty_N_go_step by lia.
    etransitivity; [apply IH |]; [| simpl; lia].
    apply N.Div0.div_lt_upper_bound.
    replace (N.of_nat (S k)) with (N.succ (N.of_nat k)) in Hx by lia.
    by rewrite N.pow_succ_r' in Hx.
Qed.

Lemma length_str_int (k : nat) (n : Z) :
  0 <= n < 10 ^ Z.of_nat k -> (0 < k)%nat ->
  (String.length (str_int n) <= k)%nat.
Proof.
  intros [H0 Hn] Hk. destruct n as [| p |]; [simpl; lia | | lia].
  unfold str_int, pretty, pretty_Z, pretty, pretty_positive, pretty,
    pretty_N.
  rewrite decide_False by done.
  etransitivity; [apply (length_pretty_N_go k) |]; [| simpl; lia].
  apply N2Z.inj_lt. rewrite N2Z.inj_pow. simpl.
  by rewrite nat_N_Z.
Qed.

(** The columns of a line of the report, before the elapsed time. *)
Definition report_columns (port : Z) (status : string) : string :=
  "Port " +:+ rjust 5 (str_int port) +:+ " ("
    +:+ ljust 15 (get_port_description port) +:+ "): " +:+ ljust 8 status.

Lemma result_line_of_outcome (port : Z) (status : string)
  (time_ms : option Z) :
  result_line (result_dict (port, status, time_ms))
  = Return (report_columns port status
            +:+ " (" +:+ from_option str_int "None" time_ms +:+ "ms)"
            +:+ String "010"%char "").
Proof.
  unfold result_line, getitem, report_columns.
  rewrite result_dict_port, result_dict_status.
  cbn [mbind completion_bind bind format_5d format_s description_of].
  assert (result_dict (port, status, time_ms) !! "time_ms"
          = Some (from_option VInt VNone time_ms)) as -> by done.
  cbn [default]. rewrite decide_True by (by destruct time_ms).
  rewrite !append_assoc. by destruct time_ms.
Qed.

(** The texts of a line are the line [result_line] gives. *)
Lemma result_line_writes (result : gmap string value) :
  result_line result
  = (texts ← result_writes result; Return (foldr String.append "" texts)).
Proof.
  unfold result_line, result_writes.
  destruct (getitem result "port") as [port |]; [| done].
  destruct (getitem result "status") as [status |]; [| done].
  cbn [mbind completion_bind bind].
  destruct (format_5d port) as [port_field |]; [| done].
  destruct (format_s 15 _) as [description_field |]; [| done].
  destruct (format_s 8 status) as [status_field |]; [| done].
  cbn [mbind completion_bind bind].
  destruct (decide _); cbn [app foldr]; by rewrite ?append_assoc.
Qed.

(** The texts written for one outcome that [process_results] stored. *)
Definition outcome_writes (o : outcome) : list string :=
  [report_columns (outcome_port o) (outcome_status o);
   " (" +:+ from_option str_int "None" (outcome_elapsed o) +:+ "ms)";
   String "010"%char ""].

Lemma result_writes_of_outcome (o : outcome) :
  result_writes (result_dict o) = Return (outcome_writes o).
Proof.
  destruct o as [[port status] time_ms].
  unfold result_writes, getitem, outcome_writes, report_columns.
  rewrite result_dict_port, result_dict_status.
  cbn [mbind completion_bind bind format_5d format_s description_of].
  assert (result_dict (port, status, time_ms) !! "time_ms"
          = Some (from_option VInt VNone time_ms)) as -> by done.
  cbn [default]. rewrite decide_True by (by destruct time_ms).
  rewrite ?append_assoc. by destruct time_ms.
Qed.

Lemma write_all_app (fs : file_system) (a b : list string)
  (calls : list file_call) :
  write_all fs (a ++ b) calls
  = match write_all fs a calls with
    | (Return _, calls') => write_all fs b calls'
    | raised => raised
    end.
Proof.
  revert calls. induction a as [| text a IH]; intros calls; [done |].
  cbn [app write_all]. unfold call.
  destruct (fs calls (WriteText text)); [apply IH | done].
Qed.

Lemma write_results_of_outcomes (fs : file_system) (outcomes : list outcome)
  (calls : list file_call) :
  write_results fs (result_dict <$> outcomes) calls
  = write_all fs (outcomes ≫= outcome_writes) calls.
Proof.
  revert calls. induction outcomes as [| o outcomes IH]; intros calls;
    [done |].
  rewrite fmap_cons, bind_cons, write_all_app. cbn [write_results].
  rewrite result_writes_of_outcome.
  destruct (write_all fs (outcome_writes o) calls) as [[[] | e] calls'];
    [apply IH | done].
Qed.

(** The writes made are a beginning of those asked for: all of them when
    nothing was raised, and otherwise up to the one the file system
    answered with the exception. *)
Lemma write_all_spec (fs : file_system) (texts : list string)
  (calls calls' : list file_call) (r : completion unit) :
  write_all fs texts calls = (r, calls') ->
  exists written,
    written `prefix_of` texts /\
    calls' = calls ++ (WriteText <$> written) /\
    match r with
    | Return _ => written = texts
    | Raise e =>
        exists pre text,
          written = pre ++ [text] /\
          fs (calls ++ (WriteText <$> pre)) (WriteText text) = Raise e
    end.
Proof.
  revert calls. induction texts as [| text texts IH]; intros calls.
  - intros [= <- <-]. exists []. by rewrite app_nil_r.
  - cbn [write_all]. unfold call.
    destruct (fs calls (WriteText text)) as [[] | e] eqn:Hfs.
    + intros (written & Hpre & -> & Hr)%IH. exists (text :: written).
      split; [by apply prefix_cons |].
      split; [by rewrite fmap_cons, <- app_assoc |].
      destruct r as [[] | e]; [by subst |].
      destruct Hr as (pre & text' & -> & Hfs').
      exists (text :: pre), text'. split; [done |].
      by rewrite fmap_cons, <- app_assoc in *.
    + intros [= <- <-]. exists [text].
      split; [apply prefix_cons, prefix_nil |]. split; [done |].
      exists [], text. by rewrite app_nil_r.
Qed.

(** X20. On what [process_results] stored, [save_results_txt] raises
    nothing of its own: the lookups and the formatting succeed for every
    result, so an exception that leaves it is one the file system answered
    a call with.  When [open] raises, nothing else is called; otherwise
    the writes made are a beginning of the header and of the lines,
    followed by the close of the file, and when the function returns they
    are all of them.  Every line carries an elapsed field: the
    milliseconds of an open port, and the text "None" for any other.  In
    particular, on a file system that raises nothing the function returns
    and the whole report is written. *)
Theorem report_of_processed_results (fs : file_system)
  (self : PortScannerApp) (outcomes : list outcome)
  (filename host scan_date : string) :
  exists (sorted_outcomes : list outcome) (r : completion unit)
         (calls : list file_call),
    process_results self outcomes
    = Return (App (result_dict <$> sorted_outcomes)) /\
    save_results_txt fs (result_dict <$> sorted_outcomes) filename host
      scan_date = (r, calls) /\
    let texts :=
      header_writes (result_dict <$> sorted_outcomes) host scan_date
        ++ (sorted_outcomes ≫= outcome_writes) in
    match fs [] (OpenFile filename) with
    | Raise e => r = Raise e /\ calls = [OpenFile filename]
    | Return _ =>
        exists written,
          written `prefix_of` texts /\
          calls
          = OpenFile filename :: (WriteText <$> written) ++ [CloseFile] /\
          (r = Return () -> written = texts) /\
          (forall e, r = Raise e ->
             exists pre c,
               pre ++ [c] `prefix_of` calls /\ fs pre c = Raise e)
    end /\
    ((forall pre c, fs pre c = Return ()) ->
     r = Return () /\
     calls = OpenFile filename :: (WriteText <$> texts) ++ [CloseFile]).
Proof.
  exists (sort_outcomes outcomes).
  set (results := result_dict <$> sort_outcomes outcomes).
  set (texts := header_writes results host scan_date
                  ++ (sort_outcomes outcomes ≫= outcome_writes)).
  assert (save_results_txt fs results filename host scan_date
          = match fs [] (OpenFile filename) with
            | Raise e => (Raise e, [OpenFile filename])
            | Return _ =>
                let '(body, calls) :=
                  write_all fs texts [OpenFile filename] in
                match fs calls CloseFile with
                | Raise e => (Raise e, calls ++ [CloseFile])
                | Return _ => (body, calls ++ [CloseFile])
                end
            end) as Hsave.
  { unfold save_results_txt, call, texts.
    destruct (fs [] (OpenFile filename)); [| done].
    rewrite write_all_app. cbn [app].
    destruct (write_all fs (header_writes _ _ _) _) as [[[] | e] calls'];
      [| done].
    unfold results. by rewrite write_results_of_outcomes. }
  destruct (save_results_txt fs results filename host scan_date)
    as [r calls] eqn:Hrun.
  exists r, calls. split; [apply process_results_spec |]. split; [done |].
  cbv zeta. fold results texts.
  assert (match fs [] (OpenFile filename) with
          | Raise e => r = Raise e /\ calls = [OpenFile filename]
          | Return _ =>
              exists written,
                written `prefix_of` texts /\
                calls = OpenFile filename :: (WriteText <$> written)
                          ++ [CloseFile] /\
                (r = Return () -> written = texts) /\
                (forall e, r = Raise e ->
                   exists pre c,
                     pre ++ [c] `prefix_of` calls /\ fs pre c = Raise e)
          end) as Hcases.
  { destruct (fs [] (OpenFile filename)) as [[] | e0];
      [| by injection Hsave as <- <-].
    destruct (write_all fs texts [OpenFile filename]) as [body calls1]
      eqn:Hw.
    apply write_all_spec in Hw as (written & Hpre & -> & Hbody).
    exists written. split; [done |].
    destruct (fs _ CloseFile) as [[] | e1] eqn:Hclose;
      injection Hsave as -> ->; (split; [done |]).
    - split.
      + by intros ->.
      + intros e ->. destruct Hbody as (pre & text & -> & Hfs).
        exists ([OpenFile filename] ++ (WriteText <$> pre)), (WriteText text).
        split; [| done].
        exists [CloseFile]. rewrite fmap_app, <- !app_assoc. done.
    - split; [done |]. intros e [= <-].
      exists ([OpenFile filename] ++ (WriteText <$> written)), CloseFile.
      split; [| done]. by rewrite <- app_assoc. }
  split; [exact Hcases |].
  intros Hok. rewrite Hok in Hcases.
  destruct Hcases as (written & _ & -> & Hall & Hraise).
  destruct r as [[] | e].
  - by rewrite Hall.
  - destruct (Hraise e eq_refl) as (pre & c & _ & Hfs).
    by rewrite Hok in Hfs.
Qed.

Lemma report_of_processed_results_witness :
  let fs : file_system := fun _ _ => Return () in
  let outcomes : list outcome :=
    [(443, "timeout", None); (22, "open", Some 62)] in
  exists (sorted_outcomes : list outcome) (r : completion unit)
         (calls : list file_call),
    process_results (App []) outcomes
    = Return (App (result_dict <$> sorted_outcomes)) /\
    save_results_txt fs (result_dict <$> sorted_outcomes) "scan.txt"
      "192.0.2.1" "2024-05-01 12:00:00" = (r, calls) /\
    r = Return () /\
    calls
    = OpenFile "scan.txt"
        :: (WriteText
              <$> header_writes (result_dict <$> sorted_outcomes)
                    "192.0.2.1" "2024-05-01 12:00:00"
                  ++ (sorted_outcomes ≫= outcome_writes))
        ++ [CloseFile].
Proof.
  intros fs outcomes.
  destruct (report_of_processed_results fs (App []) outcomes "scan.txt"
              "192.0.2.1" "2024-05-01 12:00:00")
    as (sorted_outcomes & r & calls & Hp & Hsave & _ & Hok).
  exists sorted_outcomes, r, calls.
  split; [exact Hp |]. split; [exact Hsave |]. apply Hok. reflexivity.
Defined.

(** A disk that is full at the sixth write: the line of port 22 is cut
    after its columns, the file is closed, and the [OSError] leaves the
    function. *)
Example save_results_txt_disk_full :
  let full := Exc (OtherException "OSError") "No space left on device" in
  let fs : file_system :=
    fun calls _ => if decide (length calls = 6%nat) then Raise full
                   else Return () in
  save_results_txt fs
    (result_dict <$> [(22, "open", Some 62); (443, "timeout", None)])
    "scan.txt" "192.0.2.1" "2024-05-01 12:00:00"
  = (Raise full,
     [OpenFile "scan.txt";
      WriteText ("Port Scan Results for 192.0.2.1" +:+ String "010"%char "");
      WriteText ("Scan Date: 2024-05-01 12:00:00" +:+ String "010"%char "");
      WriteText ("Total Ports Scanned: 2" +:+ String "010"%char "");
      WriteText ("--------------------------------------------------"
                 +:+ String "010"%char (String "010"%char ""));
      WriteText "Port    22 (SSH            ): open    ";
      WriteText " (62ms)";
      CloseFile]).
Proof. vm_compute. reflexivity. Qed.

(** A path that cannot be opened: nothing is written and nothing is
    closed. *)
Example save_results_txt_no_such_directory :
  let missing :=
    Exc (OtherException "FileNotFoundError") "No such file or directory" in
  let fs : file_system :=
    fun _ c => match c with OpenFile _ => Raise missing | _ => Return () end in
  save_results_txt fs [] "missing/scan.txt" "192.0.2.1" "2024-05-01 12:00:00"
  = (Raise missing, [OpenFile "missing/scan.txt"]).
Proof. vm_compute. reflexivity. Qed.

Lemma well_known_names_short (port : Z) (name : string) :
  well_known_ports !! port = Some name -> (String.length name <= 15)%nat.
Proof.
  unfold well_known_ports. intros H%elem_of_list_to_map_2.
  repeat (apply elem_of_cons in H as [[= -> ->] | H]; [simpl; lia |]).
  by apply elem_of_nil in H.
Qed.

Lemma length_get_port_description (port : Z) :
  0 <= port < 10 ^ 10 ->
  (String.length (get_port_description port) <= 15)%nat.
Proof.
  intros Hp. unfold get_port_description.
  destruct (well_known_ports !! port) as [name |] eqn:Hname; simpl.
  - by eapply well_known_names_short.
  - rewrite length_append. simpl.
    pose proof (length_str_int 10 port). simpl in *. lia.
Qed.

(** X21. The columns of the report are aligned: for a port of at most
    five digits and one of the four statuses, the part of the line before
    the elapsed time is exactly 38 characters long. *)
Theorem report_columns_aligned (port : Z) (status : string) :
  0 <= port <= 99999 ->
  status ∈ statuses ->
  String.length (report_columns port status) = 38%nat.
Proof.
  intros Hp Hstatus. unfold report_columns.
  rewrite !length_append.
  rewrite length_rjust by (apply (length_str_int 5); simpl; lia).
  rewrite length_ljust by (apply length_get_port_description; lia).
  rewrite length_ljust; [done |].
  unfold statuses in Hstatus.
  repeat (apply elem_of_cons in Hstatus as [-> | Hstatus]; [simpl; lia |]).
  by apply elem_of_nil in Hstatus.
Qed.

Lemma report_columns_aligned_witness :
  report_columns 8080 "timeout"
  = "Port  8080 (HTTP Proxy     ): timeout " /\
  String.length (report_columns 8080 "timeout") = 38%nat.
Proof.
  split; [vm_compute; reflexivity |].
  apply report_columns_aligned; [lia | in_statuses].
Defined.

(** ** The common ports *)

(** X22. The common ports are exactly the ports of the table of service
    names, so each of them is reported under a service name and never as
    "Port n"; they are valid ports in strictly ascending order, and the
    text the common-ports button writes parses back to them. *)
Theorem common_ports_are_the_named_ports :
  (forall port : Z,
     port ∈ get_common_ports <-> is_Some (well_known_ports !! port)) /\
  Forall (fun port => 1 <= port <= 65535) get_common_ports /\
  StronglySorted Z.lt get_common_ports /\
  parse_ports set_common_ports = Return get_common_ports.
Proof.
  split; [| split; [| split]].
  - intros port. rewrite <- elem_of_dom.
    assert (dom well_known_ports
            = (list_to_set get_common_ports : gset Z)) as ->
      by (vm_compute; reflexivity).
    by rewrite elem_of_list_to_set.
  - unfold get_common_ports. repeat (constructor; [lia |]). constructor.
  - unfold get_common_ports.
    repeat (constructor; [| repeat (constructor; [lia |]); constructor]).
    constructor.
  - vm_compute. reflexivity.
Qed.

(** ** [banner_grab] *)

Lemma rstrip_idempotent (s : string) : rstrip (rstrip s) = rstrip s.
Proof.
  induction s as [| c s IH]; [done |]. simpl.
  destruct (rstrip s) as [| d r] eqn:Hr.
  - destruct (is_space c) eqn:Hc; [done |]. simpl. by rewrite Hc.
  - simpl in *. by rewrite IH.
Qed.

Lemma lstrip_rstrip_lstrip (s : string) :
  lstrip (rstrip (lstrip s)) = rstrip (lstrip s).
Proof.
  assert (lstrip s = "" \/
          exists c t, lstrip s = String c t /\ is_space c = false)
    as [-> | (c & t & -> & Hc)].
  { induction s as [| c s IH]; [by left |]. simpl.
    destruct (is_space c) eqn:Hc; [done | right; eauto]. }
  - done.
  - cbn [rstrip]. destruct (rstrip t); rewrite ?Hc; cbn [lstrip];
      by rewrite Hc.
Qed.

(** Stripping twice is stripping once. *)
Lemma strip_idempotent (s : string) : strip (strip s) = strip s.
Proof.
  unfold strip. by rewrite lstrip_rstrip_lstrip, rstrip_idempotent.
Qed.

(** X23. When the text read from the connection, if any, is ASCII,
    [banner_grab] never raises, whatever else the network does; a banner
    it returns is the text read with the surrounding whitespace removed,
    and is never empty. *)
Theorem banner_grab_returns (ip : string) (port : Z) (timeout : float)
  (w : Banner.exchange) :
  (forall text, Banner.read w = Return text -> isascii text = true) ->
  exists result : option string,
    (Banner.banner_grab ip port timeout w).1 = Return result /\
    forall banner, result = Some banner ->
      banner <> "" /\ strip banner = banner /\
      exists text, Banner.read w = Return text /\ banner = strip text.
Proof.
  intros _. unfold Banner.banner_grab, Banner.close_and_wait, try_except.
  destruct (Banner.connect w); [| by exists None].
  destruct (Banner.read w) as [text | e].
  - destruct (Banner.close w _) as [[] | e1]; simpl.
    + destruct (Banner.wait_closed w _) as [[] | e2]; simpl.
      * eexists. split; [done |]. intros banner.
        destruct (String.eqb_spec (strip text) ""); [done |].
        intros [= <-]. split; [done |].
        split; [apply strip_idempotent | eauto].
      * destruct (isinstance e2 TimeoutError); simpl; [| by exists None].
        destruct (Banner.close w _); simpl; [| by exists None].
        destruct (Banner.wait_closed w _); by exists None.
    + destruct (isinstance e1 TimeoutError); simpl; [| by exists None].
      destruct (Banner.close w _); simpl; [| by exists None].
      destruct (Banner.wait_closed w _); by exists None.
  - destruct (isinstance e TimeoutError); simpl; [| by exists None].
    destruct (Banner.close w _); simpl; [| by exists None].
    destruct (Banner.wait_closed w _); by exists None.
Qed.

Lemma banner_grab_returns_witness :
  let w :=
    Banner.Exchange (Return ())
      (Return ("SSH-2.0-OpenSSH_9.6"
               +:+ String "013"%char (String "010"%char "")))
      (fun _ => Return ()) (fun _ => Return ()) in
  (Banner.banner_grab "192.0.2.1" 22 2%float w).1
  = Return (Some "SSH-2.0-OpenSSH_9.6") /\
  exists result : option string,
    (Banner.banner_grab "192.0.2.1" 22 2%float w).1 = Return result /\
    forall banner, result = Some banner ->
      banner <> "" /\ strip banner = banner /\
      exists text, Banner.read w = Return text /\ banner = strip text.
Proof.
  intros w. split; [reflexivity |].
  apply (banner_grab_returns "192.0.2.1" 22 2%float w).
  intros text [= <-]. reflexivity.
Defined.

(** X24. Once the connection is made, [banner_grab] calls
    [writer.close()] when the read returns and when it times out; when the
    read raises anything else, it returns [None] without any call on the
    writer: the connection is left open. *)
Theorem banner_grab_closes_writer (ip : string) (port : Z) (timeout : float)
  (w : Banner.exchange) :
  Banner.connect w = Return () ->
  match Banner.read w with
  | Return _ =>
      exists rest,
        (Banner.banner_grab ip port timeout w).2 = Banner.Close :: rest
  | Raise e =>
      if isinstance e TimeoutError
      then exists rest,
             (Banner.banner_grab ip port timeout w).2 = Banner.Close :: rest
      else Banner.banner_grab ip port timeout w = (Return None, [])
  end.
Proof.
  intros Hc. unfold Banner.banner_grab, Banner.close_and_wait, try_except.
  rewrite Hc. destruct (Banner.read w) as [text | e].
  - destruct (Banner.close w _) as [[] | e1]; simpl.
    + destruct (Banner.wait_closed w _) as [[] | e2]; simpl; [eauto |].
      destruct (isinstance e2 TimeoutError); simpl; [| eauto].
      destruct (Banner.close w _); simpl; eauto.
    + destruct (isinstance e1 TimeoutError); simpl; [| eauto].
      destruct (Banner.close w _); simpl; eauto.
  - destruct (isinstance e TimeoutError); [| done].
    destruct (Banner.close w _); simpl; eauto.
Qed.

Lemma banner_grab_closes_writer_witness :
  Banner.banner_grab "192.0.2.1" 22 2%float
    (Banner.Exchange (Return ())
       (Raise (Exc (OtherException "ConnectionResetError")
                 "Connection reset by peer"))
       (fun _ => Return ()) (fun _ => Return ()))
  = (Return None, []).
Proof.
  apply (banner_grab_closes_writer "192.0.2.1" 22 2%float
           (Banner.Exchange (Return ())
              (Raise (Exc (OtherException "ConnectionResetError")
                        "Connection reset by peer"))
              (fun _ => Return ()) (fun _ => Return ()))).
  reflexivity.
Defined.

(** ** [validate_ip_or_domain] *)

Import Validate.

(** The character before the position reached after [l]. *)
Fixpoint last_of (prev : option ascii) (l : string) : option ascii :=
  match l with
  | EmptyString => prev
  | String c l' => last_of (Some c) l'
  end.

(** A label of a domain name: 1 to 63 letters, digits or hyphens. *)
Definition label_ok (l : string) : Prop :=
  (1 <= String.length l <= 63)%nat /\ string_forallb label_char l = true.

(** Between [min] and [max] characters of a class, then [k]: a prefix of
    that length in the class, and [k] on what follows it. *)
Lemma repeat_class (P : ascii -> bool) (k : continuation) (max : nat) :
  forall (min : nat) (prev : option ascii) (s : string),
    repeat (matches (Class P)) max min prev s k = true <->
    exists l t, s = l +:+ t /\ (min <= String.length l <= max)%nat /\
      string_forallb P l = true /\ k (last_of prev l) t = true.
Proof.
  induction max as [| max IH]; intros min prev s; simpl.
  - rewrite orb_false_r. split.
    + destruct min; [| done]. intros Hk. exists "", s. simpl.
      repeat split; (done || lia).
    + intros ([| c l] & t & -> & Hlen & _ & Hk); simpl in *; [| lia].
      by destruct min; [| lia].
  - rewrite orb_true_iff. split.
    + intros [Hk | Hstep].
      * destruct min; [| done]. exists "", s. simpl.
        repeat split; (done || lia).
      * destruct s as [| d s']; [done |].
        apply andb_prop in Hstep as [Hd Hrest].
        apply IH in Hrest as (l & t & -> & Hlen & Hl & Hk).
        exists (String d l), t. simpl. rewrite Hd, Hl.
        repeat split; (done || lia).
    + intros ([| c l] & t & -> & Hlen & Hl & Hk); simpl in *.
      * left. by destruct min; [| lia].
      * right. apply andb_prop in Hl as [-> Hl]. simpl.
        apply IH. exists l, t. repeat split; (done || lia).
Qed.

(** The labels after the first one, each behind its dot. *)
Fixpoint dotted (labels : list string) : string :=
  match labels with
  | [] => ""
  | l :: labels' => String "." (l +:+ dotted labels')
  end.

(** The end of the string, as [$] sees it. *)
Definition at_end : continuation :=
  fun prev s => matches Eol prev s (fun _ _ => true).

Definition ending (e : string) : Prop := e = "" \/ e = String "010" "".

Lemma at_end_spec prev (s : string) : at_end prev s = true <-> ending s.
Proof.
  unfold at_end, ending. simpl. rewrite andb_true_r, orb_true_iff.
  by rewrite !String.eqb_eq.
Qed.

Lemma dot_label_turn prev (s : string) (k : continuation) :
  matches (Seq (Char ".") (Repeat (Class label_char) 1 63)) prev s k
  = match s with
    | String d s' =>
        Ascii.eqb "." d
        && repeat (matches (Class label_char)) 63 1 (Some d) s' k
    | EmptyString => false
    end.
Proof. by destruct s. Qed.

(** [(\.[A-Za-z0-9-]{1,63})*$] with at most [fuel] turns. *)
Lemma dotted_labels (fuel : nat) :
  forall (prev : option ascii) (s : string),
    repeat (matches (Seq (Char ".") (Repeat (Class label_char) 1 63)))
      fuel 0 prev s at_end = true <->
    exists labels e, (length labels <= fuel)%nat /\ Forall label_ok labels /\
      ending e /\ s = dotted labels +:+ e.
Proof.
  induction fuel as [| fuel IH]; intros prev s.
  - cbn [repeat]. rewrite orb_false_r, at_end_spec. split.
    + intros He. exists [], s. by repeat split.
    + intros ([| l labels] & e & Hlen & _ & He & ->); [done |].
      simpl in Hlen. lia.
  - cbn [repeat]. rewrite orb_true_iff, at_end_spec. split.
    + intros [He | Hturn].
      * exists [], s. repeat split; (done || simpl; lia).
      * rewrite dot_label_turn in Hturn. destruct s as [| d s']; [done |].
        apply andb_prop in Hturn as [<-%Ascii.eqb_eq Hrest].
        apply repeat_class in Hrest as (l & t & -> & Hlen & Hl & Hk).
        cbn [pred] in Hk. apply IH in Hk as (labels & e & Hn & Hall & He & ->).
        exists (l :: labels), e. repeat split; try done.
        -- simpl. lia.
        -- by constructor.
        -- cbn [dotted].
           change (String "." (l +:+ dotted labels +:+ e)
                   = String "." ((l +:+ dotted labels) +:+ e)).
           by rewrite append_assoc.
    + intros ([| l labels] & e & Hlen & Hall & He & ->); [by left |].
      right. apply Forall_cons in Hall as [[Hl1 Hl2] Hall].
      rewrite dot_label_turn. cbn [dotted].
      change (String "." (l +:+ dotted labels) +:+ e)
        with (String "." ((l +:+ dotted labels) +:+ e)).
      lazy iota beta. rewrite Ascii.eqb_refl, andb_true_l.
      apply repeat_class. exists l, (dotted labels +:+ e).
      split; [by rewrite append_assoc |]. split; [done |]. split; [done |].
      cbn [pred]. apply IH. exists labels, e. repeat split; try done.
      simpl in Hlen. lia.
Qed.

Lemma length_dotted (labels : list string) :
  (length labels <= String.length (dotted labels))%nat.
Proof.
  induction labels as [| l labels IH]; simpl; [done |].
  rewrite length_append. lia.
Qed.

Lemma last_of_app prev (a b : string) :
  last_of prev (a +:+ b) = last_of (last_of prev a) b.
Proof.
  revert prev. induction a as [| c a IH]; intros prev; [done |]. apply IH.
Qed.

(** The pattern, read from left to right. *)
Lemma domain_pattern_unfold (h : string) :
  re_match domain_pattern h
  = match h with
    | String d _ => negb (Ascii.eqb "-" d)
    | EmptyString => true
    end
    && repeat (matches (Class label_char)) 63 1 None h
         (fun prev t =>
            match prev with
            | Some d => negb (Ascii.eqb "-" d)
            | None => true
            end
            && repeat
                 (matches (Seq (Char ".") (Repeat (Class label_char) 1 63)))
                 (String.length t) 0 prev t at_end).
Proof.
  unfold re_match, domain_pattern.
  change (matches (Seq Bol ?r) None h ?k) with (matches r None h k).
  assert (forall k k' : continuation,
            (forall p t, k p t = k' p t) ->
            forall max min prev s,
              repeat (matches (Class label_char)) max min prev s k
              = repeat (matches (Class label_char)) max min prev s k') as Hext.
  { intros k k' Hk. induction max as [| max IH]; intros min prev s;
      cbn [repeat]; rewrite Hk; [done |].
    f_equal. cbn [matches]. destruct s as [| d s]; [done |]. by rewrite IH. }
  destruct h as [| d h];
    [change (matches (Seq (NotAhead "-") ?r) None "" ?k)
       with (matches r None "" k)
    |change (matches (Seq (NotAhead "-") ?r) None (String d h) ?k)
       with (negb (Ascii.eqb "-" d) && matches r None (String d h) k)];
    rewrite ?andb_true_l; [| f_equal];
    (change (matches (Seq (Repeat ?r 1 63) ?r') None ?s ?k)
       with (repeat (matches r) 63 1 None s
               (fun prev t => matches r' prev t k));
     apply Hext; intros [c |] t; reflexivity).
Qed.

(** A first label that neither starts nor ends with a hyphen. *)
Definition no_hyphen_at_ends (l : string) : Prop :=
  (forall t, l <> String "-" t) /\ last_of None l <> Some "-"%char.

(** What the domain pattern accepts: a first label without a hyphen at
    its ends, further labels behind dots, and nothing else but a final
    newline. *)
Lemma domain_pattern_spec (h : string) :
  re_match domain_pattern h = true <->
  exists first labels e,
    h = first +:+ dotted labels +:+ e /\ label_ok first /\
    no_hyphen_at_ends first /\ Forall label_ok labels /\ ending e.
Proof.
  rewrite domain_pattern_unfold, andb_true_iff, repeat_class. split.
  - intros (Hhead & l & t & -> & Hlen & Hl & [Hlast Hstar]%andb_prop).
    apply dotted_labels in Hstar as (labels & e & _ & Hall & He & ->).
    exists l, labels, e. split; [done |]. split; [done |].
    split; [| done]. split.
    + intros t' ->. simpl in Hhead. done.
    + destruct (last_of None l) as [c |]; [| discriminate]. intros [= ->].
      by rewrite Ascii.eqb_refl in Hlast.
  - intros (first & labels & e & -> & [Hlen Hl] & [Hstart Hend] & Hall & He).
    split.
    + destruct first as [| d first]; [simpl in Hlen; lia |].
      change (negb (Ascii.eqb "-" d) = true).
      destruct (Ascii.eqb_spec "-" d) as [<- |]; [| done].
      by destruct (Hstart first).
    + exists first, (dotted labels +:+ e). split; [done |].
      split; [done |]. split; [done |]. apply andb_true_intro. split.
      * destruct (last_of None first) as [c |]; [| done].
        destruct (Ascii.eqb_spec "-" c) as [<- |]; done.
      * apply dotted_labels. exists labels, e.
        split; [| done]. rewrite length_append.
        pose proof (length_dotted labels). lia.
Qed.

Lemma append_nil_r (a : string) : a +:+ "" = a.
Proof.
  induction a as [| c a IH]; [done |].
  change (String c (a +:+ "") = String c a). by rewrite IH.
Qed.

Lemma join_dotted (first : string) (labels : list string) :
  join "." (first :: labels) = first +:+ dotted labels.
Proof.
  revert first. induction labels as [| l labels IH]; intros first.
  - simpl. by rewrite append_nil_r.
  - change (join "." (first :: l :: labels))
      with (first +:+ String "." (join "." (l :: labels))).
    by rewrite IH.
Qed.

(** What [strip] returns does not end with whitespace. *)
Lemma rstrip_last (s : string) :
  forall prev, rstrip s <> "" ->
    exists c, last_of prev (rstrip s) = Some c /\ is_space c = false.
Proof.
  induction s as [| c s IH]; intros prev; [done |]. cbn [rstrip].
  destruct (rstrip s) as [| d r] eqn:Hr.
  - destruct (is_space c) eqn:Hc; [done |]. intros _. by exists c.
  - intros _. destruct (IH (Some c)) as (c' & Hc' & Hs); [done |].
    by exists c'.
Qed.

(** X25. For an ASCII host that is no IP literal, [validate_ip_or_domain]
    returns (it does not raise), and it accepts the host exactly when the
    host, once stripped, has at most 253 characters and is a list of
    labels joined by dots, each of 1 to 63 letters, digits or hyphens, the
    first of which neither starts nor ends with a hyphen.  Nothing is
    asked of the hyphens of the other labels. *)
Theorem validate_domain_name (ip_address : string -> completion unit)
  (host : string) (e : exn) :
  isascii host = true ->
  ip_address (strip host) = Raise e ->
  exc_cls e = ValueError ->
  exists accepted : bool,
    validate_ip_or_domain ip_address host = Return accepted /\
    (accepted = true <->
     (String.length (strip host) <= 253)%nat /\
     exists first labels,
       strip host = join "." (first :: labels) /\
       no_hyphen_at_ends first /\ Forall label_ok (first :: labels)).
Proof.
  intros _ Hip He. unfold validate_ip_or_domain.
  assert (forall first labels,
            Forall label_ok (first :: labels) ->
            join "." (first :: labels) <> "") as Hnonempty.
  { intros first labels [[Hlen _] _]%Forall_cons. rewrite join_dotted.
    destruct first; [simpl in Hlen; lia | done]. }
  destruct (String.eqb_spec (strip host) "") as [Hblank | Hstrip].
  { exists false. rewrite orb_true_r. split; [done |]. split; [done |].
    intros (_ & first & labels & Hjoin & _ & Hall).
    rewrite Hjoin in Hblank. by apply Hnonempty in Hblank. }
  assert (String.eqb host "" = false) as ->.
  { apply String.eqb_neq. by intros ->. }
  cbn [orb]. rewrite Hip. unfold try_except, mbind, completion_bind, bind.
  unfold isinstance. rewrite He. cbn [exc_class_eqb].
  destruct (Nat.ltb_spec 253 (String.length (strip host))) as [Hlong | Hlen].
  { exists false. split; [done |]. split; [done |]. intros [? _]. lia. }
  eexists. split; [reflexivity |]. rewrite domain_pattern_spec. split.
  - intros (first & labels & ending_ & Hh & Hfirst & Hends & Hall & Hend).
    split; [done |]. exists first, labels.
    split; [| split; [done | by constructor]].
    rewrite join_dotted. destruct Hend as [-> | ->];
      [by rewrite append_nil_r in Hh |].
    exfalso. unfold strip in *.
    destruct (rstrip_last (lstrip host) None Hstrip) as (c & Hc & Hspace).
    rewrite Hh, !last_of_app in Hc. simpl in Hc.
    by injection Hc as <-.
  - intros (_ & first & labels & Hjoin & Hends & [Hfirst Hall]%Forall_cons).
    exists first, labels, "". rewrite append_nil_r, <- join_dotted.
    split; [done |]. split; [done |]. split; [done |].
    split; [done | by left].
Qed.

Lemma validate_domain_name_witness :
  exists accepted : bool,
    validate_ip_or_domain
      (fun _ => Raise (Exc ValueError "does not appear to be an address"))
      " 999.999.999.999 " = Return accepted /\
    (accepted = true <->
     (String.length (strip " 999.999.999.999 ") <= 253)%nat /\
     exists first labels,
       strip " 999.999.999.999 " = join "." (first :: labels) /\
       no_hyphen_at_ends first /\ Forall label_ok (first :: labels)).
Proof.
  apply (validate_domain_name
           (fun _ => Raise (Exc ValueError "does not appear to be an address"))
           " 999.999.999.999 "
           (Exc ValueError "does not appear to be an address"));
    reflexivity.
Defined.

(** X26. Whitespace around the host does not matter: the answer for a
    host is the answer for the stripped host, whatever [ip_address] does. *)
Theorem validate_ignores_surrounding_whitespace
  (ip_address : string -> completion unit) (host : string) :
  validate_ip_or_domain ip_address host
  = validate_ip_or_domain ip_address (strip host).
Proof.
  unfold validate_ip_or_domain. rewrite strip_idempotent.
  destruct (String.eqb_spec (strip host) "") as [Hblank | Hstrip].
  - by rewrite !orb_true_r.
  - rewrite !orb_false_r.
    assert (String.eqb host "" = false) as ->; [| done].
    apply String.eqb_neq. by intros ->.
Qed.

Example domain_pattern_examples :
  Validate.re_match Validate.domain_pattern
    <$> ["example.com"; "a.-b-"; "999.999.999.999"; "-a.com"; "a-.com";
         "a..b"; "a."; "not a host!"; ""]
  = [true; true; true; false; false; false; false; false; false].
Proof. vm_compute. reflexivity. Qed.
